(** * Slice sampling in BTYDplus: a model of [src/slice-sampling.cpp]

    The file embeds the sampler [slice_sample_cpp], the two batch
    drivers [slice_sample_ma_liu] and [pcnbd_slice_sample] with the
    log-densities they sample, and the sampler [slice_sample_mvnorm] of
    the unit tests, and proves properties of them.

    Conventions of the embedding.
    - A C++ [double] has two readings.  In the first it is a value of
      [double] below: an exact rational, one of the two infinities, or
      NaN; comparisons and the special values follow IEEE 754 and finite
      arithmetic is exact (rounding, overflow and the sign of zero are
      not modelled).  In the second, the module [Binary64], it is an IEEE
      754 binary64 value with the rounding operations of [SpecFloat].
      What the sampler does to its interval and how the position relates
      to the bounds depends on rounding and overflow, and is stated on
      the second reading.
    - An Rcpp [NumericVector] is a list of doubles.  [clone] is the
      identity on values; an assignment [v[j] = e] is a list update.
      Reading past the end gives NaN and writing past the end does
      nothing, where C++ leaves both undefined; the sampler does neither
      (lemma [run_sized]).
    - R's random generator is a pair of streams of variates (a [seed])
      read through two cursors.
    - The unbounded loops of the sampler are run by a step function over
      the sampler's local state, one loop test per step. *)

From Stdlib Require Import QArith Qreduction Lqa ZArith Lia String.
From Stdlib Require Import SpecFloat.
From stdpp Require Import base option list.

(** ** Doubles *)

Inductive double : Type :=
| Finite (q : Q)
| PosInf
| NegInf
| NaN.

#[global] Instance double_inhabited : Inhabited double := populate NaN.

Declare Scope double_scope.
Delimit Scope double_scope with D.
Bind Scope double_scope with double.

Definition Qltb (a b : Q) : bool := negb (Qle_bool b a).

(** [a < b], false as soon as one side is NaN. *)
Definition dlt (a b : double) : bool :=
  match a, b with
  | Finite p, Finite q => Qltb p q
  | Finite _, PosInf => true
  | NegInf, Finite _ => true
  | NegInf, PosInf => true
  | _, _ => false
  end.

(** [a == b]. *)
Definition deq (a b : double) : bool :=
  match a, b with
  | Finite p, Finite q => Qeq_bool p q
  | PosInf, PosInf => true
  | NegInf, NegInf => true
  | _, _ => false
  end.

Definition dle (a b : double) : bool := dlt a b || deq a b.

Definition dopp (a : double) : double :=
  match a with
  | Finite p => Finite (Qred (- p))
  | PosInf => NegInf
  | NegInf => PosInf
  | NaN => NaN
  end.

Definition dadd (a b : double) : double :=
  match a, b with
  | Finite p, Finite q => Finite (Qred (p + q))
  | NaN, _ | _, NaN => NaN
  | PosInf, NegInf | NegInf, PosInf => NaN
  | PosInf, _ | _, PosInf => PosInf
  | NegInf, _ | _, NegInf => NegInf
  end.

Definition dsub (a b : double) : double :=
  match a, b with
  | Finite p, Finite q => Finite (Qred (p - q))
  | NaN, _ | _, NaN => NaN
  | PosInf, PosInf | NegInf, NegInf => NaN
  | PosInf, _ | _, NegInf => PosInf
  | NegInf, _ | _, PosInf => NegInf
  end.

(** The sign of a double, as a comparison with zero ([None] for NaN). *)
Definition dsign (a : double) : option comparison :=
  match a with
  | Finite p => Some (p ?= 0)%Q
  | PosInf => Some Gt
  | NegInf => Some Lt
  | NaN => None
  end.

Definition signed_inf (s : comparison) : double :=
  match s with Gt => PosInf | Lt => NegInf | Eq => NaN end.

Definition sign_mul (s t : comparison) : comparison :=
  match s, t with
  | Eq, _ | _, Eq => Eq
  | Gt, Gt | Lt, Lt => Gt
  | _, _ => Lt
  end.

Definition dmul (a b : double) : double :=
  match a, b with
  | Finite p, Finite q => Finite (Qred (p * q))
  | _, _ =>
      match dsign a, dsign b with
      | Some s, Some t => signed_inf (sign_mul s t)
      | _, _ => NaN
      end
  end.

(** Division; a finite non-zero value over zero gives the infinity of its
    sign (zero is taken as positive), zero over zero gives NaN. *)
Definition ddiv (a b : double) : double :=
  match a, b with
  | Finite p, Finite q =>
      if Qeq_bool q 0 then signed_inf (p ?= 0)%Q else Finite (Qred (p / q))
  | Finite _, (PosInf | NegInf) => Finite 0
  | (PosInf | NegInf), Finite q =>
      match dsign a with
      | Some s => signed_inf (sign_mul s (if Qltb q 0 then Lt else Gt))
      | None => NaN
      end
  | _, _ => NaN
  end.

(** [std::max(a, b)] is [(a < b) ? b : a]; [std::min(a, b)] is
    [(b < a) ? b : a]. *)
Definition dmax (a b : double) : double := if dlt a b then b else a.
Definition dmin (a b : double) : double := if dlt b a then b else a.

(** R's [R_FINITE]. *)
Definition R_FINITE (a : double) : bool :=
  match a with Finite _ => true | _ => false end.

Notation "a + b" := (dadd a b) : double_scope.
Notation "a - b" := (dsub a b) : double_scope.
Notation "a * b" := (dmul a b) : double_scope.
Notation "a / b" := (ddiv a b) : double_scope.
Notation "- a" := (dopp a) : double_scope.
Notation "a <? b" := (dlt a b) : double_scope.
Notation "a >? b" := (dlt b a) (only parsing) : double_scope.
Notation "a ==? b" := (deq a b) (at level 70) : double_scope.
Notation "a < b" := (dlt a b = true) : double_scope.
Notation "a <= b" := (dle a b = true) : double_scope.
Notation "a <= b <= c" := (dle a b = true /\ dle b c = true) : double_scope.
Notation "a < b < c" := (dlt a b = true /\ dlt b c = true) : double_scope.

(** ** Vectors *)

Abbreviation NumericVector := (list double).

(** [NumericVector out(N)]: [N] zeros. *)
Definition zeros (N : nat) : NumericVector := replicate N (Finite 0).

(** ** The random generator and the record of evaluations *)

(** The variates R's generator will deliver: [exp_rand] those of
    [exp_rand()], [unif_rand] those of [unif_rand()] that fall strictly
    between 0 and 1 (Rcpp's generators draw again otherwise). *)
Record seed : Type := Seed {
  exp_rand : nat -> Q;
  unif_rand : nat -> Q
}.

(** The places of [slice_sample_cpp] where control can stand:
    [Entry] before line 51, [Sweep] at the test of line 56, [Coord] at the
    test of line 58, [ExpandLeft] at the test of line 66, [ExpandRight] at
    the test of line 68, [Shrink] at the head of the loop of lines 76-85,
    [Done] at the return of line 92. *)
Inductive label : Type :=
| Entry | Sweep | Coord | ExpandLeft | ExpandRight | Shrink | Done.

(** One call [logfn(point, bundle)], with the place it was made from. *)
Record call : Type := Call {
  site : label;
  point : NumericVector;
  bundle : NumericVector
}.

(** What a run shares with its caller: how many variates of each stream
    were consumed, and the calls made to the log-density so far (oldest
    first; the list only records, nothing reads it). *)
Record world : Type := World {
  n_exp : nat;
  n_unif : nat;
  evals : list call
}.

Definition note (k : call) (m : world) : world :=
  World (n_exp m) (n_unif m) (evals m ++ [k]).

Section Random.
Variable rs : seed.

(** [rexp(1)[0]]. *)
Definition rexp (m : world) : double * world :=
  (Finite (exp_rand rs (n_exp m)),
   World (S (n_exp m)) (n_unif m) (evals m)).

(** [runif(1)[0]]. *)
Definition runif (m : world) : double * world :=
  (Finite (unif_rand rs (n_unif m)),
   World (n_exp m) (S (n_unif m)) (evals m)).

(** [runif(1, min, max)[0]]: NaN when a bound is not finite or
    [max < min], [min] when the bounds are equal, and
    [min + (max - min) * u] for the next uniform variate [u] otherwise. *)
Definition runif_range (min max : double) (m : world) : double * world :=
  if negb (R_FINITE min) || negb (R_FINITE max) || (max <? min)%D
  then (NaN, m)
  else if (min ==? max)%D then (min, m)
  else let '(u, m') := runif m in ((min + (max - min) * u)%D, m').

End Random.

(** ** The sampler *)

(** The local state of [slice_sample_cpp]: the place control stands at and
    the variables alive there.  [u] and [logys] are dead at every such
    place and are bound inside [step].  The type [V] is what a vector
    variable holds: the vector itself here, a reference into a store in
    the second reading of the function further down. *)
Record config (V : Type) : Type := Config {
  pc : label;
  i : Z;
  j : nat;
  x : V;
  xs : V;
  L : V;
  R : V;
  r0 : double;
  r1 : double;
  logy : double;
  logz : double;
  env : world
}.

Arguments Config {V}.
Arguments pc {V}.
Arguments i {V}.
Arguments j {V}.
Arguments x {V}.
Arguments xs {V}.
Arguments L {V}.
Arguments R {V}.
Arguments r0 {V}.
Arguments r1 {V}.
Arguments logy {V}.
Arguments logz {V}.
Arguments env {V}.

Section Setters.
Context {V : Type}.
Implicit Type c : config V.

Definition goto (p : label) c : config V :=
  Config p (i c) (j c) (x c) (xs c) (L c) (R c) (r0 c) (r1 c) (logy c) (logz c) (env c).
Definition with_env (m : world) c : config V :=
  Config (pc c) (i c) (j c) (x c) (xs c) (L c) (R c) (r0 c) (r1 c) (logy c) (logz c) m.
Definition with_i (n : Z) c : config V :=
  Config (pc c) n (j c) (x c) (xs c) (L c) (R c) (r0 c) (r1 c) (logy c) (logz c) (env c).
Definition with_j (n : nat) c : config V :=
  Config (pc c) (i c) n (x c) (xs c) (L c) (R c) (r0 c) (r1 c) (logy c) (logz c) (env c).
Definition with_x (v : V) c : config V :=
  Config (pc c) (i c) (j c) v (xs c) (L c) (R c) (r0 c) (r1 c) (logy c) (logz c) (env c).
Definition with_xs (v : V) c : config V :=
  Config (pc c) (i c) (j c) (x c) v (L c) (R c) (r0 c) (r1 c) (logy c) (logz c) (env c).
Definition with_L (v : V) c : config V :=
  Config (pc c) (i c) (j c) (x c) (xs c) v (R c) (r0 c) (r1 c) (logy c) (logz c) (env c).
Definition with_R (v : V) c : config V :=
  Config (pc c) (i c) (j c) (x c) (xs c) (L c) v (r0 c) (r1 c) (logy c) (logz c) (env c).
Definition with_r0 (d : double) c : config V :=
  Config (pc c) (i c) (j c) (x c) (xs c) (L c) (R c) d (r1 c) (logy c) (logz c) (env c).
Definition with_r1 (d : double) c : config V :=
  Config (pc c) (i c) (j c) (x c) (xs c) (L c) (R c) (r0 c) d (logy c) (logz c) (env c).
Definition with_logy (d : double) c : config V :=
  Config (pc c) (i c) (j c) (x c) (xs c) (L c) (R c) (r0 c) (r1 c) d (logz c) (env c).
Definition with_logz (d : double) c : config V :=
  Config (pc c) (i c) (j c) (x c) (xs c) (L c) (R c) (r0 c) (r1 c) (logy c) d (env c).

End Setters.

(** The state on entry: the vectors are default-constructed (empty), the
    doubles are uninitialised (never read before they are written; NaN
    here). *)
Definition init (m : world) : config NumericVector :=
  Config Entry 0 0 [] [] [] [] NaN NaN NaN NaN m.

(** [logfn(pt, params)], recorded. *)
Definition eval (logfn : NumericVector -> NumericVector -> double)
    (params : NumericVector) (s : label) (pt : NumericVector) (m : world)
  : double * world :=
  (logfn pt params, note (Call s pt params) m).

Section Engine.
Variable rs : seed.
Variable logfn : NumericVector -> NumericVector -> double.
Variables params x0 : NumericVector.
Variable steps : Z.
Variables w lower upper : double.

Definition step (c : config NumericVector) : config NumericVector :=
  match pc c with
  | Entry =>
      (* 51-54: x = clone(x0); L = clone(x0); R = clone(x0);
                logy = logfn(x, params);   56: i = 0 *)
      let '(v, m) := eval logfn params Entry x0 (env c) in
      goto Sweep (with_i 0 (with_env m (with_logy v
        (with_R x0 (with_L x0 (with_x x0 c))))))
  | Sweep =>
      (* 56: i < steps;   58: j = 0 *)
      if (i c <? steps)%Z then goto Coord (with_j 0 c) else goto Done c
  | Coord =>
      (* 58: j < x0.size() *)
      if (j c <? length x0)%nat then
        (* 60: logz = logy - rexp(1)[0] *)
        let '(e, m1) := rexp rs (env c) in
        let logz' := (logy c - e)%D in
        (* 63-65: u = runif(1)[0] * w; L[j] = x[j] - u; R[j] = x[j] + (w-u) *)
        let '(r, m2) := runif rs m1 in
        let u := (r * w)%D in
        let L' := <[j c := (x c !!! j c - u)%D]> (L c) in
        let R' := <[j c := (x c !!! j c + (w - u))%D]> (R c) in
        goto ExpandLeft (with_env m2 (with_logz logz' (with_R R' (with_L L' c))))
      else
        (* 56: i++ *)
        goto Sweep (with_i (i c + 1)%Z c)
  | ExpandLeft =>
      (* 66-67: while ( L[j] > lower && logfn(L, params) > logz )
                  L[j] = L[j] - w; *)
      if (L c !!! j c >? lower)%D then
        let '(v, m) := eval logfn params ExpandLeft (L c) (env c) in
        if (v >? logz c)%D
        then with_env m (with_L (<[j c := (L c !!! j c - w)%D]> (L c)) c)
        else goto ExpandRight (with_env m c)
      else goto ExpandRight c
  | ExpandRight =>
      (* 68-69: while ( R[j] < upper && logfn(R, params) > logz )
                  R[j] = R[j] + w; *)
      let leave (c' : config NumericVector) : config NumericVector :=
        (* 72-75: r0 = std::max(L[j], lower); r1 = std::min(R[j], upper);
                  xs = clone(x); *)
        goto Shrink (with_xs (x c') (with_r1 (dmin (R c' !!! j c') upper)
          (with_r0 (dmax (L c' !!! j c') lower) c'))) in
      if (R c !!! j c <? upper)%D then
        let '(v, m) := eval logfn params ExpandRight (R c) (env c) in
        if (v >? logz c)%D
        then with_env m (with_R (<[j c := (R c !!! j c + w)%D]> (R c)) c)
        else leave (with_env m c)
      else leave c
  | Shrink =>
      (* 77-78: xs[j] = runif(1, r0, r1)[0]; logys = logfn(xs, params); *)
      let '(d, m1) := runif_range rs (r0 c) (r1 c) (env c) in
      let xs' := <[j c := d]> (xs c) in
      let '(logys, m2) := eval logfn params Shrink xs' m1 in
      if (logys >? logz c)%D then
        (* 79-80: break;   87-88: x = clone(xs); logy = logys;   58: j++ *)
        goto Coord (with_j (S (j c)) (with_env m2 (with_logy logys
          (with_x xs' (with_xs xs' c)))))
      else if (xs' !!! j c <? x c !!! j c)%D then
        (* 81-82: r0 = xs[j] *)
        with_env m2 (with_r0 (xs' !!! j c) (with_xs xs' c))
      else
        (* 83-84: r1 = xs[j] *)
        with_env m2 (with_r1 (xs' !!! j c) (with_xs xs' c))
  | Done => c
  end.

Fixpoint run (n : nat) (c : config NumericVector) : config NumericVector :=
  match n with
  | O => c
  | S k => run k (step c)
  end.

(** The call [slice_sample_cpp(logfn, params, x0, steps, w, lower, upper)]
    made in the world [m] and given [fuel] steps: the vector returned and
    the world left behind, if the return of line 92 is reached. *)
Definition slice_sample_cpp (fuel : nat) (m : world)
  : option (NumericVector * world) :=
  let c := run fuel (init m) in
  match pc c with
  | Done => Some (x c, env c)
  | _ => None
  end.

End Engine.

(** ** The sampler over a store

    An Rcpp [NumericVector] variable is a reference to an R vector, and
    [v[j] = e] writes through it.  The second reading of
    [slice_sample_cpp] keeps the vectors in a store and the references in
    the local state: [clone] allocates, an assignment of a clone rebinds
    the variable, an indexed assignment writes into the store.  It is
    related to [step] by [view] (theorem [view_mrun]). *)

Abbreviation loc := nat (only parsing).
Abbreviation heap := (list (list double)).

(** [passed] lists the references handed to [logfn], call by call:
    the position and the parameter bundle. *)
Record machine : Type := Machine {
  locals : config loc;
  store : heap;
  passed : list (loc * loc)
}.

Definition alloc (v : NumericVector) (h : heap) : loc * heap :=
  (length h, h ++ [v]).

Definition clone (a : loc) (h : heap) : loc * heap := alloc (h !!! a) h.

Definition peek (a : loc) (k : nat) (h : heap) : double := (h !!! a) !!! k.

Definition poke (a : loc) (k : nat) (d : double) (h : heap) : heap :=
  <[a := <[k := d]> (h !!! a)]> h.

(** 49: [NumericVector x, xs, L, R;] allocates four empty vectors. *)
Definition enter (h : heap) (m : world) : machine :=
  let '(ax, h1) := alloc [] h in
  let '(axs, h2) := alloc [] h1 in
  let '(aL, h3) := alloc [] h2 in
  let '(aR, h4) := alloc [] h3 in
  Machine (Config Entry 0 0 ax axs aL aR NaN NaN NaN NaN m) h4 [].

(** The local state with each reference replaced by the vector it
    points to. *)
Definition view (st : machine) : config NumericVector :=
  let c := locals st in
  let h := store st in
  Config (pc c) (i c) (j c) (h !!! (x c)) (h !!! (xs c)) (h !!! (L c)) (h !!! (R c))
    (r0 c) (r1 c) (logy c) (logz c) (env c).

Section StoreEngine.
Variable rs : seed.
Variable logfn : NumericVector -> NumericVector -> double.
Variables params x0 : loc.
Variable steps : Z.
Variables w lower upper : double.

Definition mstep (st : machine) : machine :=
  let c := locals st in
  let h := store st in
  match pc c with
  | Entry =>
      let '(ax, h1) := clone x0 h in
      let '(aL, h2) := clone x0 h1 in
      let '(aR, h3) := clone x0 h2 in
      let '(v, m) := eval logfn (h3 !!! params) Entry (h3 !!! ax) (env c) in
      Machine
        (goto Sweep (with_i 0 (with_env m (with_logy v
           (with_R aR (with_L aL (with_x ax c)))))))
        h3 (passed st ++ [(ax, params)])
  | Sweep =>
      Machine (if (i c <? steps)%Z then goto Coord (with_j 0 c) else goto Done c)
        h (passed st)
  | Coord =>
      if (j c <? length (h !!! x0))%nat then
        let '(e, m1) := rexp rs (env c) in
        let logz' := (logy c - e)%D in
        let '(r, m2) := runif rs m1 in
        let u := (r * w)%D in
        let h1 := poke (L c) (j c) (peek (x c) (j c) h - u)%D h in
        let h2 := poke (R c) (j c) (peek (x c) (j c) h1 + (w - u))%D h1 in
        Machine (goto ExpandLeft (with_env m2 (with_logz logz' c))) h2 (passed st)
      else
        Machine (goto Sweep (with_i (i c + 1)%Z c)) h (passed st)
  | ExpandLeft =>
      if (peek (L c) (j c) h >? lower)%D then
        let '(v, m) := eval logfn (h !!! params) ExpandLeft (h !!! (L c)) (env c) in
        let seen := passed st ++ [(L c, params)] in
        if (v >? logz c)%D
        then Machine (with_env m c)
               (poke (L c) (j c) (peek (L c) (j c) h - w)%D h) seen
        else Machine (goto ExpandRight (with_env m c)) h seen
      else Machine (goto ExpandRight c) h (passed st)
  | ExpandRight =>
      let leave (c' : config loc) (seen : list (loc * loc)) : machine :=
        let '(axs, h1) := clone (x c') h in
        Machine
          (goto Shrink (with_xs axs (with_r1 (dmin (peek (R c') (j c') h) upper)
             (with_r0 (dmax (peek (L c') (j c') h) lower) c'))))
          h1 seen in
      if (peek (R c) (j c) h <? upper)%D then
        let '(v, m) := eval logfn (h !!! params) ExpandRight (h !!! (R c)) (env c) in
        let seen := passed st ++ [(R c, params)] in
        if (v >? logz c)%D
        then Machine (with_env m c)
               (poke (R c) (j c) (peek (R c) (j c) h + w)%D h) seen
        else leave (with_env m c) seen
      else leave c (passed st)
  | Shrink =>
      let '(d, m1) := runif_range rs (r0 c) (r1 c) (env c) in
      let h1 := poke (xs c) (j c) d h in
      let '(logys, m2) := eval logfn (h1 !!! params) Shrink (h1 !!! (xs c)) m1 in
      let seen := passed st ++ [(xs c, params)] in
      if (logys >? logz c)%D then
        let '(ax, h2) := clone (xs c) h1 in
        Machine
          (goto Coord (with_j (S (j c)) (with_env m2 (with_logy logys
             (with_x ax c)))))
          h2 seen
      else if (peek (xs c) (j c) h1 <? peek (x c) (j c) h1)%D then
        Machine (with_env m2 (with_r0 (peek (xs c) (j c) h1) c)) h1 seen
      else
        Machine (with_env m2 (with_r1 (peek (xs c) (j c) h1) c)) h1 seen
  | Done => st
  end.

Fixpoint mrun (n : nat) (st : machine) : machine :=
  match n with
  | O => st
  | S k => mrun k (mstep st)
  end.

End StoreEngine.

(** ** The log-densities of the models *)

(** The functions of libm and Rmath the file calls, and Rcpp's implicit
    conversion of a double to a [NumericVector] (the third argument of the
    two calls in [slice_sample_ma_liu]).  They are not defined in this
    repository; the model takes them as given.  [Rf_pgamma x shape scale
    lower_tail log_p] and [Rf_dgamma x shape scale give_log] take their
    flags as integers, as in C. *)
Record Rmath : Type := {
  sqrt : double -> double;
  log : double -> double;
  exp : double -> double;
  lgamma : double -> double;
  Rf_pgamma : double -> double -> double -> Z -> Z -> double;
  Rf_dgamma : double -> double -> double -> Z -> double;
  as_vector : double -> NumericVector
}.

Section Posteriors.
Variable lib : Rmath.

Definition post_lambda_ma_liu (data params : NumericVector) : double :=
  let lambda_ := data !!! 0%nat in
  let x := params !!! 0%nat in
  let tx := params !!! 1%nat in
  let Tcal := params !!! 2%nat in
  let mu := params !!! 4%nat in
  let r := params !!! 5%nat in
  let alpha := params !!! 6%nat in
  ((r - Finite 1) * log lib lambda_ - (lambda_ * alpha) +
   x * log lib lambda_ - log lib (lambda_ + mu) +
   log lib (mu * exp lib ((- tx) * (lambda_ + mu)) +
            lambda_ * exp lib ((- Tcal) * (lambda_ + mu))))%D.

Definition post_mu_ma_liu (data params : NumericVector) : double :=
  let mu_ := data !!! 0%nat in
  let x := params !!! 0%nat in
  let tx := params !!! 1%nat in
  let Tcal := params !!! 2%nat in
  let lambda := params !!! 3%nat in
  let s := params !!! 7%nat in
  let beta := params !!! 8%nat in
  ((s - Finite 1) * log lib mu_ - (mu_ * beta) +
   x * log lib lambda - log lib (lambda + mu_) +
   log lib (mu_ * exp lib ((- tx) * (lambda + mu_)) +
            lambda * exp lib ((- Tcal) * (lambda + mu_))))%D.

Definition pcnbd_post_tau (data params : NumericVector) : double :=
  let tau_ := data !!! 0%nat in
  let k := params !!! 4%nat in
  let lambda := params !!! 5%nat in
  let mu := params !!! 6%nat in
  let one_minus_F :=
    Rf_pgamma lib tau_ k (Finite 1 / (k * lambda))%D 0 0 in
  let f := Rf_dgamma lib tau_ k (Finite 1 / (k * lambda))%D 0 in
  ((- mu) * tau_ + log lib (mu * one_minus_F + f))%D.

Definition pcnbd_post_k (data params : NumericVector) : double :=
  let k_ := data !!! 0%nat in
  let x := params !!! 0%nat in
  let tx := params !!! 1%nat in
  let Tcal := params !!! 2%nat in
  let litt := params !!! 3%nat in
  let lambda := params !!! 5%nat in
  let tau := params !!! 7%nat in
  let t := params !!! 8%nat in
  let gamma := params !!! 9%nat in
  let log_one_minus_F :=
    Rf_pgamma lib (dmin Tcal tau - tx)%D k_ (Finite 1 / (k_ * lambda))%D 0 1 in
  ((t - Finite 1) * log lib k_ - (k_ * gamma) +
   k_ * x * log lib (k_ * lambda) - x * lgamma lib k_ - k_ * lambda * tx +
   (k_ - Finite 1) * litt +
   log_one_minus_F)%D.

Definition pcnbd_post_lambda (data params : NumericVector) : double :=
  let lambda_ := data !!! 0%nat in
  let x := params !!! 0%nat in
  let tx := params !!! 1%nat in
  let Tcal := params !!! 2%nat in
  let k := params !!! 4%nat in
  let tau := params !!! 7%nat in
  let r := params !!! 10%nat in
  let alpha := params !!! 11%nat in
  let log_one_minus_F :=
    Rf_pgamma lib (dmin Tcal tau - tx)%D k (Finite 1 / (k * lambda_))%D 0 1 in
  ((r - Finite 1) * log lib lambda_ - (lambda_ * alpha) +
   k * x * log lib lambda_ - k * lambda_ * tx +
   log_one_minus_F)%D.

End Posteriors.

(** ** The batch drivers *)

(** A computation that reads and advances the world and may run out of
    fuel. *)
Definition M (A : Type) : Type := world -> option (A * world).

Definition ret {A : Type} (a : A) : M A := fun m => Some (a, m).

Definition bind {A B : Type} (c : M A) (f : A -> M B) : M B :=
  fun m => match c m with
           | Some (a, m') => f a m'
           | None => None
           end.

Notation "v <- c ;; k" := (bind c (fun v => k))
  (at level 100, c at next level, right associativity).

(** [for (int i = from; i < from + count; i++) body] over the output
    vector. *)
Fixpoint for_loop (body : nat -> NumericVector -> M NumericVector)
    (from count : nat) (out : NumericVector) : M NumericVector :=
  match count with
  | O => ret out
  | S n => out' <- body from out ;; for_loop body (S from) n out'
  end.

(** [out[i] = call[0]]. *)
Definition store_first (i : nat) (out : NumericVector)
    (call : M NumericVector) : M NumericVector :=
  v <- call ;; ret (<[i := v !!! 0%nat]> out).

Section Drivers.
Variable rs : seed.
Variable lib : Rmath.
Variable fuel : nat.

(** The body of the loop of [slice_sample_ma_liu], lines 268-273. *)
Definition slice_sample_ma_liu_at (what : string)
    (x tx Tcal lambda mu : NumericVector) (r alpha s beta : double)
    (i : nat) (out : NumericVector) : M NumericVector :=
  let params :=
    [x !!! i; tx !!! i; Tcal !!! i; lambda !!! i; mu !!! i; r; alpha; s; beta] in
  if String.eqb what "lambda" then
    store_first i out
      (slice_sample_cpp rs (post_lambda_ma_liu lib) params
         (as_vector lib (lambda !!! i)) 3
         (Finite 3 * sqrt lib r / alpha)%D (Finite 0) PosInf fuel)
  else if String.eqb what "mu" then
    store_first i out
      (slice_sample_cpp rs (post_mu_ma_liu lib) params
         (as_vector lib (mu !!! i)) 6
         (Finite 3 * sqrt lib s / beta)%D (Finite 0) PosInf fuel)
  else ret out.

Definition slice_sample_ma_liu (what : string)
    (x tx Tcal lambda mu : NumericVector) (r alpha s beta : double)
  : M NumericVector :=
  let N := length x in
  for_loop (slice_sample_ma_liu_at what x tx Tcal lambda mu r alpha s beta)
    0 N (zeros N).

(** The test of line 426: the log of the upper tail of the gamma
    distribution at [tx[i]] is below -100. *)
Definition too_flat (tx k lambda : NumericVector) (i : nat) : bool :=
  (Rf_pgamma lib (tx !!! i) (k !!! i)
     (Finite 1 / (k !!! i * lambda !!! i)) 0 1 <? Finite (-100))%D.

(** Lines 430-435. *)
Definition tau_init (tx Tcal tau : NumericVector) (i : nat) : double :=
  if (tau !!! i >? Tcal !!! i)%D || (tau !!! i <? tx !!! i)%D
  then (tx !!! i + (Tcal !!! i - tx !!! i) / Finite 2)%D
  else tau !!! i.

(** The body of the loop of [pcnbd_slice_sample], lines 416-438. *)
Definition pcnbd_slice_sample_at (what : string)
    (x tx Tcal litt k lambda mu tau : NumericVector)
    (t gamma r alpha s beta : double)
    (i : nat) (out : NumericVector) : M NumericVector :=
  let params :=
    [x !!! i; tx !!! i; Tcal !!! i; litt !!! i;
     k !!! i; lambda !!! i; mu !!! i; tau !!! i;
     t; gamma; r; alpha; s; beta] in
  if String.eqb what "k" then
    store_first i out
      (slice_sample_cpp rs (pcnbd_post_k lib) params [k !!! i] 3
         (Finite 3 * sqrt lib t / gamma)%D (Finite 0) PosInf fuel)
  else if String.eqb what "lambda" then
    store_first i out
      (slice_sample_cpp rs (pcnbd_post_lambda lib) params [lambda !!! i] 3
         (Finite 3 * sqrt lib r / alpha)%D (Finite 0) PosInf fuel)
  else if String.eqb what "tau" then
    if too_flat tx k lambda i then
      (* 428: out[i] = runif(1, tx[i], Tcal[i])[0] *)
      fun m =>
        let '(d, m') := runif_range rs (tx !!! i) (Tcal !!! i) m in
        Some (<[i := d]> out, m')
    else
      store_first i out
        (slice_sample_cpp rs (pcnbd_post_tau lib) params
           [tau_init tx Tcal tau i] 6
           ((Tcal !!! i - tx !!! i) / Finite 2)%D (tx !!! i) (Tcal !!! i) fuel)
  else ret out.

Definition pcnbd_slice_sample (what : string)
    (x tx Tcal litt k lambda mu tau : NumericVector)
    (t gamma r alpha s beta : double) : M NumericVector :=
  let N := length x in
  for_loop
    (pcnbd_slice_sample_at what x tx Tcal litt k lambda mu tau
       t gamma r alpha s beta)
    0 N (zeros N).

End Drivers.

(** ** The sampler of the unit test on the bivariate normal *)

(** A [double] passed where [slice_sample_cpp] takes its [int steps]: the
    fraction is dropped.  C++ leaves the conversion undefined for NaN, the
    infinities and values whose integer part an [int] (32 bits) does not
    hold; the conversion instruction of x86-64 gives [INT_MIN] for all of
    them, and so does [to_int]. *)
Definition INT_MIN : Z := (-2147483648)%Z.
Definition INT_MAX : Z := 2147483647%Z.

Definition to_int (d : double) : Z :=
  match d with
  | Finite q =>
      let t := Z.quot (Qnum q) (Z.pos (Qden q)) in
      if ((INT_MIN <=? t) && (t <=? INT_MAX))%Z then t else INT_MIN
  | _ => INT_MIN
  end.

Section TestSamplers.
Variable rs : seed.
Variable lib : Rmath.
Variable fuel : nat.

Definition post_mvnorm (x sigma : NumericVector) : double :=
  let det :=
    (sigma !!! 0%nat * sigma !!! 3%nat - sigma !!! 1%nat * sigma !!! 2%nat)%D in
  (- log lib (Finite 2 * Finite (3141593 # 1000000))
   - Finite (1 # 2) * log lib det
   - Finite (1 # 2) * (Finite 1 / det) *
     (x !!! 0%nat * x !!! 0%nat * sigma !!! 3%nat
      - x !!! 0%nat * x !!! 1%nat * sigma !!! 2%nat
      - x !!! 0%nat * x !!! 1%nat * sigma !!! 1%nat
      + x !!! 1%nat * x !!! 1%nat * sigma !!! 0%nat))%D.

(** The call of line 123 leaves [w], [lower] and [upper] to their
    defaults: 1, [-INFINITY] and [INFINITY]. *)
Definition slice_sample_mvnorm (sigma : NumericVector) : M NumericVector :=
  let x0 := [Finite (1 # 5); Finite (3 # 10)] in
  let steps := Finite 20 in
  slice_sample_cpp rs post_mvnorm sigma x0 (to_int steps) (Finite 1)
    NegInf PosInf fuel.

End TestSamplers.

(** ** The input contract of the sampler and what its loops maintain *)

(** A coordinate value the bounds allow: a number between [lower] and
    [upper]. *)
Definition inside (lower upper v : double) : Prop :=
  exists q, v = Finite q /\ (lower <= v <= upper)%D.

(** Uniform variates lie strictly between 0 and 1. *)
Definition unit_uniforms (rs : seed) : Prop :=
  forall n, (0 < unif_rand rs n < 1)%Q.

(** The width is a positive number. *)
Definition positive (w : double) : Prop :=
  exists q, w = Finite q /\ (0 < q)%Q.

Section Invariant.
Variables (x0 : NumericVector) (lower upper : double).
Implicit Type c : config NumericVector.

(** While the interval is stepped out, [L[j] < x[j] < R[j]]. *)
Definition straddles c : Prop :=
  exists l q r,
    L c !!! j c = Finite l /\ x c !!! j c = Finite q /\
    R c !!! j c = Finite r /\ (l < q < r)%Q.

(** While the interval is shrunk, [lower <= r0 <= x[j] <= r1 <= upper],
    and [r0 < r1] when [lower < upper]. *)
Definition brackets c : Prop :=
  exists a q b,
    r0 c = Finite a /\ x c !!! j c = Finite q /\ r1 c = Finite b /\
    (a <= q <= b)%Q /\ (lower <= r0 c)%D /\ (r1 c <= upper)%D /\
    ((lower < upper)%D -> (a < b)%Q).

Definition shaped c : Prop :=
  length (x c) = length x0 /\ length (L c) = length x0 /\
  length (R c) = length x0 /\ Forall (inside lower upper) (x c).

Definition Inv c : Prop :=
  match pc c with
  | Entry => x c = []
  | Sweep | Coord | Done => shaped c
  | ExpandLeft | ExpandRight =>
      shaped c /\ (j c < length x0)%nat /\ straddles c
  | Shrink =>
      shaped c /\ (j c < length x0)%nat /\ brackets c /\
      Forall (inside lower upper) (xs c) /\
      exists d, xs c = <[j c := d]> (x c)
  end.

End Invariant.

(** Once the vectors are cloned, [x], [L] and [R] keep the length of
    [x0], and [j] indexes them inside the three loops. *)
Definition sized (x0 : NumericVector) (c : config NumericVector) : Prop :=
  match pc c with
  | Entry => True
  | Sweep | Coord | Done =>
      length (x c) = length x0 /\ length (L c) = length x0 /\
      length (R c) = length x0
  | ExpandLeft | ExpandRight =>
      length (x c) = length x0 /\ length (L c) = length x0 /\
      length (R c) = length x0 /\ (j c < length x0)%nat
  | Shrink =>
      length (x c) = length x0 /\ length (L c) = length x0 /\
      length (R c) = length x0 /\ (j c < length x0)%nat /\
      length (xs c) = length x0
  end.

(** Where a run stands when the log-density at [x0] is NaN: on its way
    to the first coordinate update with [logy] NaN, or inside that update
    with [logz] NaN. *)
Definition stuck (c : config NumericVector) : Prop :=
  match pc c with
  | Entry => True
  | Sweep => i c = 0%Z /\ logy c = NaN
  | Coord => j c = 0%nat /\ logy c = NaN
  | ExpandLeft | ExpandRight | Shrink => logz c = NaN
  | Done => False
  end.

(** What the store-level run maintains: the caller's part of the store
    (the first [length h0] vectors) is as it was, and the four vector
    variables refer to distinct vectors allocated since. *)
Definition private (h0 : heap) (st : machine) : Prop :=
  let c := locals st in
  let h := store st in
  take (length h0) h = h0 /\
  (length h0 <= x c < length h)%nat /\ (length h0 <= xs c < length h)%nat /\
  (length h0 <= L c < length h)%nat /\ (length h0 <= R c < length h)%nat /\
  x c <> xs c /\ x c <> L c /\ x c <> R c /\
  xs c <> L c /\ xs c <> R c /\ L c <> R c.

(** What a call made in the world [m] has drawn and evaluated: [n]
    variates of each stream for the coordinate updates it has completed
    ([more] for the one it is in), and the log-density once on entry and
    at least once for each completed update. *)
Definition tally (m : world) (c : config NumericVector) (n more : nat) : Prop :=
  n_exp (env c) = (n_exp m + n + more)%nat /\
  (n_unif m + n + more <= n_unif (env c))%nat /\
  (length (evals m) + 1 + n <= length (evals (env c)))%nat.

(** The loop counters stay in range, and the tally of a state is that of
    the [i * x0.size() + j] coordinate updates completed before it. *)
Definition spent (x0 : NumericVector) (steps : Z) (m : world)
    (c : config NumericVector) : Prop :=
  let updates := (Z.to_nat (i c) * length x0 + j c)%nat in
  match pc c with
  | Entry => env c = m
  | Sweep =>
      (0 <= i c <= Z.max 0 steps)%Z /\
      tally m c (Z.to_nat (i c) * length x0) 0
  | Coord =>
      (0 <= i c < steps)%Z /\ (j c <= length x0)%nat /\ tally m c updates 0
  | ExpandLeft | ExpandRight | Shrink =>
      (0 <= i c < steps)%Z /\ (j c < length x0)%nat /\ tally m c updates 1
  | Done => tally m c (Z.to_nat steps * length x0) 0
  end.

(** Coordinate [k] of the position is NaN and stays so: while it is
    updated both ends of its interval are NaN, and so is the lower end of
    the interval draws are taken from. *)
Definition poisoned (k : nat) (c : config NumericVector) : Prop :=
  match pc c with
  | Entry => True
  | Sweep | Coord | Done => x c !!! k = NaN
  | ExpandLeft | ExpandRight =>
      x c !!! k = NaN /\ (j c = k -> L c !!! k = NaN /\ R c !!! k = NaN)
  | Shrink =>
      x c !!! k = NaN /\ (j c = k -> r0 c = NaN) /\
      (j c <> k -> xs c !!! k = NaN)
  end.

(** [logy] holds the log-density at the position, and during a
    coordinate update [logz] is [logy] less the exponential variate drawn
    for the update, the last one drawn. *)
Definition cached (rs : seed)
    (logfn : NumericVector -> NumericVector -> double)
    (params : NumericVector) (c : config NumericVector) : Prop :=
  match pc c with
  | Entry => True
  | Sweep | Coord | Done => logy c = logfn (x c) params
  | ExpandLeft | ExpandRight | Shrink =>
      logy c = logfn (x c) params /\ (0 < n_exp (env c))%nat /\
      logz c = (logy c - Finite (exp_rand rs (n_exp (env c) - 1)))%D
  end.

(** ** Inputs for the examples *)

(** [-(x[0]^2)] and [-(x[0]^2 + x[1]^2)]: the log-densities, up to an
    additive constant, of the centred normal distributions of variance
    1/2 in one and two dimensions ([bowl] is what [post_mvnorm], line 114,
    computes for [sigma = (1/2, 0, 0, 1/2)], less its constant terms). *)
Definition hill (p q : NumericVector) : double :=
  (- (p !!! 0%nat * p !!! 0%nat))%D.

Definition bowl (p q : NumericVector) : double :=
  (- (p !!! 0%nat * p !!! 0%nat + p !!! 1%nat * p !!! 1%nat))%D.

(** A log-density that is undefined everywhere, and one that is [-inf]
    at the origin and zero elsewhere. *)
Definition undefined (p q : NumericVector) : double := NaN.

Definition hole (p q : NumericVector) : double :=
  if (p !!! 0%nat ==? Finite 0)%D then NegInf else Finite 0.

(** Every exponential variate is 1, every uniform variate 1/2. *)
Definition half_seed : seed := Seed (fun _ => 1%Q) (fun _ => (1 # 2)%Q).

(** Every exponential variate is 1, every uniform variate 1/4. *)
Definition quarter_seed : seed := Seed (fun _ => 1%Q) (fun _ => (1 # 4)%Q).

Definition start : world := World 0 0 [].

(** Stand-ins for libm and Rmath on rationals, to run the drivers on
    examples: [exp(-t)] is replaced by [1 / (1 + t)] and [log] by its
    inverse [1 - 1 / a], the gamma distribution by the exponential
    distribution (shape 1) with that replacement, and the rest is crude.
    The conversion of a double [d] to a [NumericVector] is the one of the
    constructor that takes the number of elements, which gives [trunc(d)]
    zeros (none when that is not positive).
    On the log scale the upper tail of the exponential distribution is
    exact, so the test of line 426 is decided as in R for shape 1; and for
    shape 1 and [mu + lambda = 1] the log-density [pcnbd_post_tau] is
    [-tau], which the stand-ins compute exactly (lemma
    [crude_post_tau]). *)
Definition crude : Rmath := {|
  sqrt := fun a => a;
  log := fun a => (Finite 1 - Finite 1 / a)%D;
  exp := fun a => (Finite 1 / (Finite 1 - a))%D;
  lgamma := fun a => a;
  Rf_pgamma := fun q shape scale lower_tail log_p =>
    if (log_p =? 1)%Z then (- (q / scale))%D
    else (Finite 1 / (Finite 1 + q / scale))%D;
  Rf_dgamma := fun q shape scale give_log =>
    (Finite 1 / (scale * (Finite 1 + q / scale)))%D;
  as_vector := fun d => zeros (Z.to_nat (to_int d))
|}.


(** * The sampler in binary64

    The second reading of [slice_sample_cpp]: the same step function over
    IEEE 754 binary64 values, with the operations of the Standard
    Library's [SpecFloat] (round to nearest, ties to even; overflow to an
    infinity; NaN from undefined operations).  The properties of the
    sampler that depend on rounding or overflow are stated on this
    reading. *)
Module Binary64.

Definition double : Type := spec_float.

Definition prec : Z := 53.
Definition emax : Z := 1024.

Definition NaN : double := S754_nan.
Definition PosInf : double := S754_infinity false.
Definition NegInf : double := S754_infinity true.

#[global] Instance double_inhabited : Inhabited double := populate NaN.

Definition dadd : double -> double -> double := SFadd prec emax.
Definition dsub : double -> double -> double := SFsub prec emax.
Definition dmul : double -> double -> double := SFmul prec emax.
Definition ddiv : double -> double -> double := SFdiv prec emax.
Definition dopp : double -> double := SFopp.

(** [a < b], [a <= b] and [a == b]: false as soon as one side is NaN. *)
Definition dlt : double -> double -> bool := SFltb.
Definition dle : double -> double -> bool := SFleb.
Definition deq : double -> double -> bool := SFeqb.

(** [std::max(a, b)] is [(a < b) ? b : a] and [std::min(a, b)] is
    [(b < a) ? b : a]. *)
Definition dmax (a b : double) : double := if dlt a b then b else a.
Definition dmin (a b : double) : double := if dlt b a then b else a.

Definition R_FINITE (a : double) : bool :=
  match a with
  | S754_zero _ | S754_finite _ _ _ => true
  | _ => false
  end.

(** The double nearest to an integer. *)
Definition of_Z (n : Z) : double := binary_normalize prec emax n 0 false.

Declare Scope binary64_scope.
Delimit Scope binary64_scope with B.
Notation "a + b" := (dadd a b) : binary64_scope.
Notation "a - b" := (dsub a b) : binary64_scope.
Notation "a * b" := (dmul a b) : binary64_scope.
Notation "a / b" := (ddiv a b) : binary64_scope.
Notation "a <? b" := (dlt a b) : binary64_scope.
Notation "a >? b" := (dlt b a) (only parsing) : binary64_scope.
Notation "a ==? b" := (deq a b) (at level 70) : binary64_scope.
Notation "a < b" := (dlt a b = true) : binary64_scope.
Notation "a <= b" := (dle a b = true) : binary64_scope.
Notation "a <= b <= c" := (dle a b = true /\ dle b c = true) : binary64_scope.
Notation "a < b < c" := (dlt a b = true /\ dlt b c = true) : binary64_scope.

(** R's random generator: the two streams of variates, and the cursors
    of a run into them. *)
Record seed : Type := Seed {
  exp_rand : nat -> double;
  unif_rand : nat -> double
}.

Record world : Type := World {
  n_exp : nat;
  n_unif : nat
}.

Section Random.
Variable rs : seed.

(** [rexp(1)[0]]. *)
Definition rexp (m : world) : double * world :=
  (exp_rand rs (n_exp m), World (S (n_exp m)) (n_unif m)).

(** [runif(1)[0]]. *)
Definition runif (m : world) : double * world :=
  (unif_rand rs (n_unif m), World (n_exp m) (S (n_unif m))).

(** [runif(1, min, max)[0]]: NaN when a bound is not finite or
    [max < min], [min] when the bounds are equal, and
    [min + (max - min) * u] for the next uniform variate [u] otherwise. *)
Definition runif_range (min max : double) (m : world) : double * world :=
  if negb (R_FINITE min) || negb (R_FINITE max) || (max <? min)%B
  then (NaN, m)
  else if (min ==? max)%B then (min, m)
  else let '(u, m') := runif m in ((min + (max - min) * u)%B, m').

End Random.

(** The local state of [slice_sample_cpp], as in the first reading. *)
Record config : Type := Config {
  pc : label;
  i : Z;
  j : nat;
  x : list double;
  xs : list double;
  L : list double;
  R : list double;
  r0 : double;
  r1 : double;
  logy : double;
  logz : double;
  env : world
}.

Definition init (m : world) : config :=
  Config Entry 0 0 [] [] [] [] NaN NaN NaN NaN m.

Section Engine.
Variable rs : seed.
Variable logfn : list double -> list double -> double.
Variables params x0 : list double.
Variable steps : Z.
Variables w lower upper : double.

Definition step (c : config) : config :=
  let 'Config p i j x xs L R r0 r1 logy logz m := c in
  match p with
  | Entry =>
      (* 51-54: x = clone(x0); L = clone(x0); R = clone(x0);
                logy = logfn(x, params);   56: i = 0 *)
      Config Sweep 0 j x0 xs x0 x0 r0 r1 (logfn x0 params) logz m
  | Sweep =>
      (* 56: i < steps;   58: j = 0 *)
      if (i <? steps)%Z
      then Config Coord i 0 x xs L R r0 r1 logy logz m
      else Config Done i j x xs L R r0 r1 logy logz m
  | Coord =>
      (* 58: j < x0.size() *)
      if (j <? length x0)%nat then
        (* 60: logz = logy - rexp(1)[0] *)
        let '(e, m1) := rexp rs m in
        let logz' := (logy - e)%B in
        (* 63-65: u = runif(1)[0] * w; L[j] = x[j] - u; R[j] = x[j] + (w-u) *)
        let '(r, m2) := runif rs m1 in
        let u := (r * w)%B in
        let L' := <[j := (x !!! j - u)%B]> L in
        let R' := <[j := (x !!! j + (w - u))%B]> R in
        Config ExpandLeft i j x xs L' R' r0 r1 logy logz' m2
      else
        (* 56: i++ *)
        Config Sweep (i + 1) j x xs L R r0 r1 logy logz m
  | ExpandLeft =>
      (* 66-67: while ( L[j] > lower && logfn(L, params) > logz )
                  L[j] = L[j] - w; *)
      if (L !!! j >? lower)%B then
        if (logfn L params >? logz)%B
        then Config ExpandLeft i j x xs (<[j := (L !!! j - w)%B]> L) R
               r0 r1 logy logz m
        else Config ExpandRight i j x xs L R r0 r1 logy logz m
      else Config ExpandRight i j x xs L R r0 r1 logy logz m
  | ExpandRight =>
      (* 68-69: while ( R[j] < upper && logfn(R, params) > logz )
                  R[j] = R[j] + w; *)
      let leave :=
        (* 72-75: r0 = std::max(L[j], lower); r1 = std::min(R[j], upper);
                  xs = clone(x); *)
        Config Shrink i j x x L R
          (dmax (L !!! j) lower) (dmin (R !!! j) upper) logy logz m in
      if (R !!! j <? upper)%B then
        if (logfn R params >? logz)%B
        then Config ExpandRight i j x xs L (<[j := (R !!! j + w)%B]> R)
               r0 r1 logy logz m
        else leave
      else leave
  | Shrink =>
      (* 77-78: xs[j] = runif(1, r0, r1)[0]; logys = logfn(xs, params); *)
      let '(d, m1) := runif_range rs r0 r1 m in
      let xs' := <[j := d]> xs in
      let logys := logfn xs' params in
      if (logys >? logz)%B then
        (* 79-80: break;   87-88: x = clone(xs); logy = logys;   58: j++ *)
        Config Coord i (S j) xs' xs' L R r0 r1 logys logz m1
      else if (xs' !!! j <? x !!! j)%B then
        (* 81-82: r0 = xs[j] *)
        Config Shrink i j x xs' L R (xs' !!! j) r1 logy logz m1
      else
        (* 83-84: r1 = xs[j] *)
        Config Shrink i j x xs' L R r0 (xs' !!! j) logy logz m1
  | Done => c
  end.

Fixpoint run (n : nat) (c : config) : config :=
  match n with
  | O => c
  | S k => run k (step c)
  end.

(** The call made in the world [m] and given [fuel] steps: the vector
    returned and the world left behind, if the return of line 92 is
    reached. *)
Definition slice_sample_cpp (fuel : nat) (m : world)
  : option (list double * world) :=
  let c := run fuel (init m) in
  match pc c with
  | Done => Some (x c, env c)
  | _ => None
  end.

End Engine.

(** ** What the loops maintain, whatever the arithmetic does *)

(** A coordinate value the bounds allow. *)
Definition within (lower upper v : double) : Prop := (lower <= v <= upper)%B.

(** Once the vectors are cloned [x] keeps the length of [x0], [j]
    indexes it inside the three loops, and in the shrinkage loop [xs] is
    [x] with coordinate [j] replaced. *)
Definition shape (x0 : list double) (c : config) : Prop :=
  match pc c with
  | Entry => True
  | Sweep | Coord | Done => length (x c) = length x0
  | ExpandLeft | ExpandRight =>
      length (x c) = length x0 /\ (j c < length x0)%nat
  | Shrink =>
      length (x c) = length x0 /\ (j c < length x0)%nat /\
      exists d, xs c = <[j c := d]> (x c)
  end.

(** Each end of the interval draws are taken from is NaN or on the right
    side of its bound. *)
Definition edges (lower upper : double) (c : config) : Prop :=
  (r0 c = NaN \/ (lower <= r0 c)%B) /\ (r1 c = NaN \/ (r1 c <= upper)%B).

Definition guarded (lower upper : double) (c : config) : Prop :=
  Forall (within lower upper) (x c) /\ (pc c = Shrink -> edges lower upper c).

(** In a state of the shrinkage loop, the draw of line 77 lies within the
    interval it is drawn from. *)
Definition drawn_within (rs : seed) (c : config) : Prop :=
  pc c = Shrink ->
  (r0 c <= fst (runif_range rs (r0 c) (r1 c) (env c)) <= r1 c)%B.

(** ** Inputs for the examples *)

(** A constant log-density; one that is 0 at every number and NaN
    elsewhere; one that is 0 at 1 and [-inf] elsewhere; and [-(x[0]^2)]. *)
Definition level (p q : list double) : double := of_Z 0.


Definition spike (p q : list double) : double :=
  if (p !!! 0%nat ==? of_Z 1)%B then of_Z 0 else NegInf.

Definition hill (p q : list double) : double :=
  dopp (p !!! 0%nat * p !!! 0%nat)%B.

(** 1/2, 1/16, 1e308, 1.7e308 and 2^-51. *)
Definition half : double := (of_Z 1 / of_Z 2)%B.
Definition sixteenth : double := (of_Z 1 / of_Z 16)%B.
Definition big : double := of_Z (10 ^ 308).
Definition huge : double := of_Z (17 * 10 ^ 307).
Definition tiny : double := (of_Z 1 / of_Z (2 ^ 51))%B.

(** Every exponential variate is 1, every uniform variate [u]. *)
Definition steady (u : double) : seed := Seed (fun _ => of_Z 1) (fun _ => u).

Definition start : world := World 0 0.

End Binary64.

(** * Properties *)

(** ** Comparisons of doubles *)

Lemma Qltb_lt (a b : Q) : Qltb a b = true <-> (a < b)%Q.
Proof.
  unfold Qltb. rewrite negb_true_iff, <- not_true_iff_false, Qle_bool_iff.
  split; [apply Qnot_le_lt | apply Qlt_not_le].
Qed.

Lemma Qltb_ge (a b : Q) : Qltb a b = false <-> (b <= a)%Q.
Proof.
  unfold Qltb. rewrite negb_false_iff. apply Qle_bool_iff.
Qed.

Lemma dlt_Finite (a b : Q) : (Finite a < Finite b)%D <-> (a < b)%Q.
Proof. apply Qltb_lt. Qed.

Lemma dle_Finite (a b : Q) : (Finite a <= Finite b)%D <-> (a <= b)%Q.
Proof.
  unfold dle; simpl. rewrite orb_true_iff, Qltb_lt, Qeq_bool_iff.
  split.
  - intros [H | H]; [apply Qlt_le_weak, H | rewrite H; apply Qle_refl].
  - intros H. destruct (Qlt_le_dec a b) as [Hlt | Hge]; [left; exact Hlt|].
    right. apply Qle_antisym; assumption.
Qed.

Lemma dle_lower_mono (lo : double) (a b : Q) :
  (lo <= Finite a)%D -> (a <= b)%Q -> (lo <= Finite b)%D.
Proof.
  destruct lo as [l| | |]; try discriminate; [|reflexivity].
  rewrite !dle_Finite. intros; lra.
Qed.

Lemma dle_upper_mono (hi : double) (a b : Q) :
  (Finite b <= hi)%D -> (a <= b)%Q -> (Finite a <= hi)%D.
Proof.
  destruct hi as [h| | |]; try discriminate; [|reflexivity].
  rewrite !dle_Finite. intros; lra.
Qed.

(** [std::max(L[j], lower)] for [L[j] < x[j]] and [lower <= x[j]]. *)
Lemma dmax_lower (lo : double) (l q : Q) :
  (lo <= Finite q)%D -> (l < q)%Q ->
  exists a, dmax (Finite l) lo = Finite a /\ (a <= q)%Q /\
            (lo <= Finite a)%D /\ ((a < q)%Q \/ lo = Finite a).
Proof.
  intros Hlo Hl. unfold dmax.
  destruct lo as [p| | |]; try discriminate.
  - apply dle_Finite in Hlo. simpl.
    destruct (Qltb l p) eqn:E.
    + exists p. rewrite dle_Finite. repeat split; try lra; auto.
    + apply Qltb_ge in E. exists l. rewrite dle_Finite.
      repeat split; try lra; auto.
  - exists l. simpl. repeat split; try lra; auto.
Qed.

(** [std::min(R[j], upper)] for [x[j] < R[j]] and [x[j] <= upper]. *)
Lemma dmin_upper (hi : double) (r q : Q) :
  (Finite q <= hi)%D -> (q < r)%Q ->
  exists b, dmin (Finite r) hi = Finite b /\ (q <= b)%Q /\
            (Finite b <= hi)%D /\ ((q < b)%Q \/ hi = Finite b).
Proof.
  intros Hhi Hr. unfold dmin.
  destruct hi as [p| | |]; try discriminate.
  - apply dle_Finite in Hhi. simpl.
    destruct (Qltb p r) eqn:E.
    + exists p. rewrite dle_Finite. repeat split; try lra; auto.
    + apply Qltb_ge in E. exists r. rewrite dle_Finite.
      repeat split; try lra; auto.
  - exists r. simpl. repeat split; try lra; auto.
Qed.

(** ** The generator *)

(** Between two numbers [a <= b], [runif(1, a, b)] is a number of
    [[a, b]], strictly inside when [a < b]. *)
Lemma runif_range_Finite (rs : seed) (a b : Q) (m : world) :
  unit_uniforms rs -> (a <= b)%Q ->
  exists d, fst (runif_range rs (Finite a) (Finite b) m) = Finite d /\
            (a <= d <= b)%Q /\ ((a < b)%Q -> (a < d < b)%Q).
Proof.
  intros Hu Hab. unfold runif_range. simpl.
  replace (Qltb b a) with false by (symmetry; apply Qltb_ge, Hab).
  destruct (Qeq_bool a b) eqn:E.
  - apply Qeq_bool_iff in E. exists a. simpl. repeat split; lra.
  - apply Qeq_bool_neq in E. simpl.
    eexists; split; [reflexivity|]. rewrite !Qred_correct.
    pose proof (Hu (n_unif m)) as [H0 H1].
    assert (a < b)%Q by (destruct (Qlt_le_dec a b); [assumption|];
                         exfalso; apply E, Qle_antisym; assumption).
    repeat split; intros; nra.
Qed.

Lemma runif_range_evals (rs : seed) (a b : double) (m : world) :
  evals (snd (runif_range rs a b m)) = evals m.
Proof.
  unfold runif_range.
  destruct (negb (R_FINITE a) || negb (R_FINITE b) || dlt b a); [reflexivity|].
  destruct (deq a b); reflexivity.
Qed.

(** ** Runs of the sampler *)

Section Runs.
Variable rs : seed.
Variable logfn : NumericVector -> NumericVector -> double.
Variables params x0 : NumericVector.
Variable steps : Z.
Variables w lower upper : double.

Local Abbreviation step1 := (step rs logfn params x0 steps w lower upper).
Local Abbreviation runs := (run rs logfn params x0 steps w lower upper).

Lemma run_add (n k : nat) (c : config NumericVector) :
  runs (n + k) c = runs k (runs n c).
Proof.
  revert c. induction n as [|n IH]; intros c; simpl; [reflexivity|apply IH].
Qed.

Lemma run_succ (n : nat) (c : config NumericVector) :
  runs (S n) c = step1 (runs n c).
Proof.
  replace (S n) with (n + 1)%nat by lia. rewrite run_add. reflexivity.
Qed.

Lemma run_Done (n : nat) (c : config NumericVector) :
  pc c = Done -> runs n c = c.
Proof.
  intros H. induction n as [|n IH]; simpl; [reflexivity|].
  unfold step. rewrite H. exact IH.
Qed.

(** Each step adds to the record of evaluations, and every call it adds
    passes [params]. *)
Lemma step_evals (c : config NumericVector) :
  exists l, evals (env (step1 c)) = evals (env c) ++ l /\
            Forall (fun k => bundle k = params) l.
Proof.
  destruct c as [p i j x xs L R r0 r1 logy logz m].
  unfold step; simpl. destruct p; simpl.
  - eexists; split; [reflexivity|]. repeat constructor.
  - exists []. rewrite app_nil_r. destruct (i <? steps)%Z; auto.
  - exists []. rewrite app_nil_r. destruct (j <? length x0)%nat; auto.
  - destruct (dlt lower (L !!! j));
      [destruct (dlt logz (logfn L params))|]; simpl;
      try (eexists; split; [reflexivity|]; repeat constructor).
    exists []. rewrite app_nil_r. auto.
  - destruct (dlt (R !!! j) upper);
      [destruct (dlt logz (logfn R params))|]; simpl;
      try (eexists; split; [reflexivity|]; repeat constructor).
    exists []. rewrite app_nil_r. auto.
  - pose proof (runif_range_evals rs r0 r1 m) as He.
    destruct (runif_range rs r0 r1 m) as [d m1]; simpl in *.
    destruct (dlt logz (logfn (<[j:=d]> xs) params)); simpl;
      [|destruct (dlt (<[j:=d]> xs !!! j) (x !!! j)); simpl];
      rewrite He; (eexists; split; [reflexivity|]; repeat constructor).
  - exists []. rewrite app_nil_r. auto.
Qed.

Lemma run_evals (n : nat) (c : config NumericVector) :
  exists l, evals (env (runs n c)) = evals (env c) ++ l /\
            Forall (fun k => bundle k = params) l.
Proof.
  revert c. induction n as [|n IH]; intros c; simpl.
  - exists []. rewrite app_nil_r. auto.
  - destruct (IH (step1 c)) as (l2 & -> & H2).
    destruct (step_evals c) as (l1 & -> & H1).
    exists (l1 ++ l2). rewrite app_assoc. split; [reflexivity|].
    apply Forall_app; auto.
Qed.

End Runs.

(** ** What the loops maintain *)

Section Contract.
Variable rs : seed.
Variable logfn : NumericVector -> NumericVector -> double.
Variables params x0 : NumericVector.
Variable steps : Z.
Variables w lower upper : double.
Hypothesis Hrs : unit_uniforms rs.
Hypothesis Hw : positive w.
Hypothesis Hx0 : Forall (inside lower upper) x0.

Local Abbreviation step1 := (step rs logfn params x0 steps w lower upper).
Local Abbreviation runs := (run rs logfn params x0 steps w lower upper).
Local Abbreviation inv := (Inv x0 lower upper).

Lemma inside_x (c : config NumericVector) :
  shaped x0 lower upper c -> (j c < length x0)%nat ->
  exists q, x c !!! j c = Finite q /\ (lower <= Finite q <= upper)%D.
Proof.
  intros (Hx & _ & _ & Hin) Hj.
  destruct (Forall_lookup_total_1 _ _ (j c) Hin) as (q & Hq & Hb); [lia|].
  exists q. rewrite <- Hq. auto.
Qed.

Lemma step_Inv (c : config NumericVector) : inv c -> inv (step1 c).
Proof.
  destruct Hw as (wq & -> & Hwq).
  destruct c as [p i j x xs L R r0 r1 logy logz m].
  unfold Inv, step; simpl.
  destruct p; simpl.
  - (* Entry *)
    intros _. unfold shaped; simpl. auto.
  - (* Sweep *)
    intros H. destruct (i <? steps)%Z; simpl; exact H.
  - (* Coord *)
    intros H. destruct (j <? length x0)%nat eqn:E; simpl; [|exact H].
    apply Nat.ltb_lt in E.
    destruct (inside_x _ H E) as (q & Hq & Hlo & Hhi); simpl in *.
    pose proof H as (Hlx & HlL & HlR & Hin); simpl in *.
    split; [|split; [exact E|]].
    + unfold shaped; simpl. rewrite !length_insert. auto.
    + unfold straddles; simpl.
      rewrite !list_lookup_total_insert_eq by lia. rewrite Hq. simpl.
      do 3 eexists. repeat split; try reflexivity.
      all: rewrite !Qred_correct; pose proof (Hrs (n_unif m)); simpl; nra.
  - (* ExpandLeft *)
    intros (H & Hj & l & q & r & Hl & Hq & Hr & Hlt); simpl in *.
    destruct (dlt lower (L !!! j)); simpl;
      [destruct (dlt logz (logfn L params)); simpl|];
      try (split; [exact H|split; [exact Hj|]];
           exists l, q, r; simpl; auto).
    pose proof H as (Hlx & HlL & HlR & Hin); simpl in *.
    split; [|split; [exact Hj|]].
    + unfold shaped; simpl. rewrite !length_insert. auto.
    + unfold straddles; simpl.
      rewrite !list_lookup_total_insert_eq by lia. rewrite Hl. simpl.
      do 3 eexists. repeat split; try eassumption; try reflexivity.
      all: rewrite ?Qred_correct; lra.
  - (* ExpandRight *)
    intros (H & Hj & l & q & r & Hl & Hq & Hr & Hlt); simpl in *.
    pose proof H as (Hlx & HlL & HlR & Hin); simpl in *.
    destruct (inside_x _ H Hj) as (q' & Hq' & Hlo & Hhi); simpl in *.
    assert (q' = q) as -> by congruence.
    assert (Hleave : forall m',
      shaped x0 lower upper
        (Config Shrink i j x x L R (dmax (L !!! j) lower)
           (dmin (R !!! j) upper) logy logz m') /\
      (j < length x0)%nat /\
      brackets lower upper
        (Config Shrink i j x x L R (dmax (L !!! j) lower)
           (dmin (R !!! j) upper) logy logz m') /\
      Forall (inside lower upper) x /\ exists d, x = <[j := d]> x).
    { intros m'. split; [exact H|split; [exact Hj|]].
      split; [|split; [exact Hin|]].
      - unfold brackets; simpl. rewrite Hl, Hr, Hq.
        destruct (dmax_lower lower l q Hlo) as (a & -> & Ha1 & Ha2 & Ha3); [lra|].
        destruct (dmin_upper upper r q Hhi) as (b & -> & Hb1 & Hb2 & Hb3); [lra|].
        exists a, q, b. repeat split; auto.
        intros Hlu. destruct Ha3 as [?| ->]; [lra|].
        destruct Hb3 as [?| ->]; [lra|]. apply dlt_Finite in Hlu. exact Hlu.
      - exists (x !!! j). symmetry. apply list_insert_id.
        apply list_lookup_lookup_total_lt. lia. }
    destruct (dlt (R !!! j) upper); simpl;
      [destruct (dlt logz (logfn R params)); simpl|]; try apply Hleave.
    split; [|split; [exact Hj|]].
    + unfold shaped; simpl. rewrite !length_insert. auto.
    + unfold straddles; simpl.
      rewrite !list_lookup_total_insert_eq by lia. rewrite Hr. simpl.
      do 3 eexists. repeat split; try eassumption; try reflexivity.
      all: rewrite ?Qred_correct; lra.
  - (* Shrink *)
    intros (H & Hj & (a & q & b & Hr0 & Hq & Hr1 & Hab & Hlo & Hhi & Hstrict)
              & Hxs & d0 & Hd0); simpl in *. subst r0 r1 xs.
    pose proof H as (Hlx & HlL & HlR & Hin); simpl in *.
    destruct (runif_range_Finite rs a b m Hrs) as (d & Hd & Hd1 & Hd2); [lra|].
    destruct (runif_range rs (Finite a) (Finite b) m) as [v m1]; simpl in *.
    subst v. rewrite list_insert_insert_eq.
    rewrite !list_lookup_total_insert_eq by lia.
    assert (Hind : inside lower upper (Finite d)).
    { exists d. split; [reflexivity|]. split.
      - eapply dle_lower_mono; [exact Hlo|lra].
      - eapply dle_upper_mono; [exact Hhi|lra]. }
    assert (Hinx : Forall (inside lower upper) (<[j:=Finite d]> x))
      by (apply Forall_insert; assumption).
    destruct (dlt logz (logfn (<[j:=Finite d]> x) params)); simpl.
    + unfold shaped; simpl. rewrite !length_insert. auto.
    + rewrite Hq. simpl.
      destruct (Qltb d q) eqn:E; simpl.
      * apply Qltb_lt in E.
        split; [exact H|split; [exact Hj|]].
        split; [|split; [exact Hinx|eauto]].
        unfold brackets; simpl. exists d, q, b.
        repeat split; auto; try lra.
        eapply dle_lower_mono; [exact Hlo|lra].
      * apply Qltb_ge in E.
        split; [exact H|split; [exact Hj|]].
        split; [|split; [exact Hinx|eauto]].
        unfold brackets; simpl. exists a, q, d.
        repeat split; auto; try lra.
        -- eapply dle_upper_mono; [exact Hhi|lra].
        -- intros Hlu. specialize (Hstrict Hlu). specialize (Hd2 Hstrict). lra.
  - (* Done *)
    auto.
Qed.

Lemma run_Inv (n : nat) (c : config NumericVector) : inv c -> inv (runs n c).
Proof.
  revert c. induction n as [|n IH]; intros c H; simpl; [exact H|].
  apply IH, step_Inv, H.
Qed.

Lemma reachable_Inv (n : nat) (m : world) : inv (runs n (init m)).
Proof. apply run_Inv. reflexivity. Qed.

Lemma reachable_inside (n : nat) (m : world) :
  Forall (inside lower upper) (x (runs n (init m))).
Proof.
  pose proof (reachable_Inv n m) as H. unfold Inv in H.
  destruct (pc (runs n (init m))) eqn:E.
  - rewrite H. constructor.
  - apply H.
  - apply H.
  - apply H.
  - apply H.
  - apply H.
  - apply H.
Qed.

End Contract.

(** ** Lengths *)

Section Sizes.
Variable rs : seed.
Variable logfn : NumericVector -> NumericVector -> double.
Variables params x0 : NumericVector.
Variable steps : Z.
Variables w lower upper : double.

Local Abbreviation step1 := (step rs logfn params x0 steps w lower upper).
Local Abbreviation runs := (run rs logfn params x0 steps w lower upper).

Lemma step_sized (c : config NumericVector) : sized x0 c -> sized x0 (step1 c).
Proof.
  destruct c as [p i j x xs L R r0 r1 logy logz m].
  unfold sized, step; simpl. destruct p; simpl.
  - auto.
  - destruct (i <? steps)%Z; simpl; auto.
  - destruct (j <? length x0)%nat eqn:E; simpl; [|auto].
    apply Nat.ltb_lt in E. rewrite !length_insert. intuition.
  - destruct (dlt lower (L !!! j));
      [destruct (dlt logz (logfn L params))|]; simpl;
      rewrite ?length_insert; auto.
  - destruct (dlt (R !!! j) upper);
      [destruct (dlt logz (logfn R params))|]; simpl;
      rewrite ?length_insert; intuition.
  - destruct (runif_range rs r0 r1 m) as [d m1]; simpl.
    destruct (dlt logz (logfn (<[j:=d]> xs) params)); simpl;
      [|destruct (dlt (<[j:=d]> xs !!! j) (x !!! j)); simpl];
      rewrite ?length_insert; intuition.
  - auto.
Qed.

Lemma run_sized (n : nat) (c : config NumericVector) :
  sized x0 c -> sized x0 (runs n c).
Proof.
  revert c. induction n as [|n IH]; intros c H; simpl; [exact H|].
  apply IH, step_sized, H.
Qed.

End Sizes.

(** ** The claims about [slice_sample_cpp] *)

(** C1, evaluated on a run in two dimensions.  From [x0 = (0, 0)] with
    width 1, no bounds, the log-density [bowl], every exponential variate
    1 and every uniform variate 1/2: the first coordinate is updated with
    the interval stepped out to [(-3/2, 3/2)] and the draw 0 accepted.
    After 9 steps control is at the test of line 66 for the second
    coordinate, the accepted position is [(0, 0)], and the vector [L]
    about to be passed to [logfn] is [(-3/2, -1/2)]: its first
    coordinate is the left end left over from the first update, not the
    accepted value 0. *)
Example stepping_out_uses_stale_endpoints :
  let c := run half_seed bowl [] [Finite 0; Finite 0] 1 (Finite 1)
             NegInf PosInf 9 (init start) in
  pc c = ExpandLeft /\ j c = 1%nat /\
  x c = [Finite 0; Finite 0] /\
  L c = [Finite (-3 # 2); Finite (-1 # 2)] /\
  R c = [Finite (3 # 2); Finite (1 # 2)] /\
  (L c !!! j c >? NegInf)%D = true /\
  <[j c := L c !!! j c]> (x c) = [Finite 0; Finite (-1 # 2)] /\
  last (evals (env (step half_seed bowl [] [Finite 0; Finite 0] 1 (Finite 1)
                      NegInf PosInf c)))
  = Some (Call ExpandLeft [Finite (-3 # 2); Finite (-1 # 2)] []).
Proof. vm_compute. repeat split; reflexivity. Qed.



(** Discharges the input contract on a concrete input by computation. *)
Ltac by_computation :=
  lazymatch goal with
  | |- unit_uniforms _ => intros ?; split; reflexivity
  | |- positive _ => eexists; split; reflexivity
  | |- Forall (inside _ _) _ =>
      repeat constructor; eexists; repeat split; reflexivity
  | |- _ => vm_compute; first [reflexivity | discriminate | lia]
  end.

(** ** The sampler in binary64 *)

Section Binary64Facts.
Import Binary64.

(** The order of binary64 values. *)

Lemma b64_compare_refl (a : double) : a <> NaN -> SFcompare a a = Some Eq.
Proof.
  destruct a as [s|s| |s m e]; simpl; intros H;
    [reflexivity | destruct s; reflexivity | destruct H; reflexivity |].
  change (PosDef.Pos.compare_cont Eq m m) with (Pos.compare m m).
  rewrite Z.compare_refl, Pos.compare_refl. destruct s; reflexivity.
Qed.

Lemma b64_compare_antisym (a b : double) (r : comparison) :
  SFcompare a b = Some r -> SFcompare b a = Some (CompOpp r).
Proof.
  destruct a as [sa|sa| |sa ma ea], b as [sb|sb| |sb mb eb]; simpl;
    try discriminate;
    try (intros [= <-]; try destruct sa; try destruct sb; reflexivity).
  change (PosDef.Pos.compare_cont Eq ma mb) with (Pos.compare ma mb).
  change (PosDef.Pos.compare_cont Eq mb ma) with (Pos.compare mb ma).
  rewrite (Z.compare_antisym ea eb), (Pos.compare_antisym ma mb).
  intros [= <-].
  destruct sa, sb; try reflexivity;
    destruct (ea ?= eb)%Z; simpl; try reflexivity;
    destruct (ma ?= mb)%positive; reflexivity.
Qed.

Lemma b64_dle_not_nan (a b : double) : (a <= b)%B -> a <> NaN /\ b <> NaN.
Proof.
  unfold dle, SFleb. destruct a, b; simpl; try discriminate;
    intros _; split; discriminate.
Qed.

Lemma b64_dle_refl (a : double) : a <> NaN -> (a <= a)%B.
Proof. intros H. unfold dle, SFleb. rewrite b64_compare_refl; auto. Qed.


Lemma b64_dlt_false_dle (a b : double) :
  a <> NaN -> b <> NaN -> dlt a b = false -> (b <= a)%B.
Proof.
  intros Ha Hb. unfold dlt, dle, SFltb, SFleb.
  destruct (SFcompare a b) as [r|] eqn:E.
  - rewrite (b64_compare_antisym _ _ _ E). destruct r; simpl; auto.
  - unfold NaN in *. destruct a, b; simpl in *; congruence.
Qed.

Lemma b64_dle_trans (a b c : double) : (a <= b)%B -> (b <= c)%B -> (a <= c)%B.
Proof.
  unfold dle, SFleb, SFcompare.
  destruct a as [sa|sa| |sa ma ea], b as [sb|sb| |sb mb eb],
           c as [sc|sc| |sc mc ec];
    try discriminate; try reflexivity;
    try destruct sa; try destruct sb; try destruct sc;
    try discriminate; try reflexivity.
  all: change (PosDef.Pos.compare_cont Eq) with Pos.compare.
  all: destruct (Z.compare_spec ea eb); try discriminate;
       destruct (Z.compare_spec eb ec); try discriminate;
       destruct (Z.compare_spec ea ec); try reflexivity; try lia; subst.
  all: destruct (Pos.compare_spec ma mb); try discriminate;
       destruct (Pos.compare_spec mb mc); try discriminate;
       destruct (Pos.compare_spec ma mc); try reflexivity; try lia.
Qed.



Lemma b64_dmax_lower (a lo : double) :
  lo <> NaN -> dmax a lo = NaN \/ (lo <= dmax a lo)%B.
Proof.
  intros Hlo. unfold dmax. destruct (dlt a lo) eqn:E.
  - right. apply b64_dle_refl, Hlo.
  - destruct a as [sa|sa| |sa ma ea] eqn:Ea; [right|right|left; reflexivity|right];
      apply b64_dlt_false_dle; auto; discriminate.
Qed.

Lemma b64_dmin_upper (b hi : double) :
  hi <> NaN -> dmin b hi = NaN \/ (dmin b hi <= hi)%B.
Proof.
  intros Hhi. unfold dmin. destruct (dlt hi b) eqn:E.
  - right. apply b64_dle_refl, Hhi.
  - destruct b as [sb|sb| |sb mb eb] eqn:Eb; [right|right|left; reflexivity|right];
      apply b64_dlt_false_dle; auto; discriminate.
Qed.

Section Machine.
Variable rs : seed.
Variable logfn : list double -> list double -> double.
Variables params x0 : list double.
Variable steps : Z.
Variables w lower upper : double.

Local Abbreviation step1 := (step rs logfn params x0 steps w lower upper).
Local Abbreviation runs := (run rs logfn params x0 steps w lower upper).

Lemma b64_run_succ (n : nat) (c : config) : runs (S n) c = step1 (runs n c).
Proof.
  revert c. induction n as [|n IH]; intros c; [reflexivity|].
  change (runs (S (S n)) c) with (runs (S n) (step1 c)).
  rewrite IH. reflexivity.
Qed.

Lemma b64_run_add (n k : nat) (c : config) :
  runs (n + k) c = runs k (runs n c).
Proof.
  revert c. induction n as [|n IH]; intros c; [reflexivity|]. apply IH.
Qed.

Lemma b64_run_Done (n : nat) (c : config) : pc c = Done -> runs n c = c.
Proof.
  intros H. induction n as [|n IH]; [reflexivity|].
  rewrite b64_run_succ, IH. destruct c; simpl in H; subst; reflexivity.
Qed.

(** A state that a step leaves as it is stays for ever, and a run that
    reaches one outside the return never returns. *)
Lemma b64_run_fixed (n : nat) (c : config) : step1 c = c -> runs n c = c.
Proof.
  intros H. induction n as [|n IH]; [reflexivity|].
  rewrite b64_run_succ, IH. exact H.
Qed.

Lemma b64_never_returns (n : nat) (m : world) :
  step1 (runs n (init m)) = runs n (init m) ->
  pc (runs n (init m)) <> Done ->
  forall fuel : nat,
    slice_sample_cpp rs logfn params x0 steps w lower upper fuel m = None.
Proof.
  intros Hfix Hpc fuel. unfold slice_sample_cpp.
  assert (H : pc (runs fuel (init m)) <> Done).
  { destruct (Nat.le_gt_cases n fuel) as [Hle|Hgt].
    - replace fuel with (n + (fuel - n))%nat by lia.
      rewrite b64_run_add, b64_run_fixed; assumption.
    - intros Hd. apply Hpc.
      replace n with (fuel + (n - fuel))%nat by lia.
      rewrite b64_run_add, b64_run_Done; assumption. }
  destruct (pc (runs fuel (init m))); congruence.
Qed.

Lemma b64_step_shape (c : config) : shape x0 c -> shape x0 (step1 c).
Proof.
  destruct c as [p i j x xs L R r0 r1 logy logz m].
  unfold shape, step; destruct p; simpl.
  - intros _. reflexivity.
  - intros H. destruct (i <? steps)%Z; simpl; exact H.
  - intros H. destruct (j <? length x0)%nat eqn:E; simpl; [|exact H].
    apply Nat.ltb_lt in E. auto.
  - intros H. destruct (dlt lower (L !!! j)); simpl;
      [destruct (dlt logz (logfn L params)); simpl|]; exact H.
  - intros (Hx & Hj).
    assert (Hid : exists d, x = <[j := d]> x).
    { exists (x !!! j). symmetry. apply list_insert_id.
      apply list_lookup_lookup_total_lt. lia. }
    destruct (dlt (R !!! j) upper); simpl;
      [destruct (dlt logz (logfn R params)); simpl|]; auto.
  - intros (Hx & Hj & d0 & ->).
    destruct (runif_range rs r0 r1 m) as [d m1]; simpl.
    rewrite list_insert_insert_eq.
    destruct (dlt logz (logfn (<[j := d]> x) params)); simpl.
    + rewrite length_insert. exact Hx.
    + destruct (dlt (<[j := d]> x !!! j) (x !!! j)); simpl; eauto.
  - auto.
Qed.

Lemma b64_run_shape (n : nat) (m : world) : shape x0 (runs n (init m)).
Proof.
  induction n as [|n IH]; [exact I|].
  rewrite b64_run_succ. apply b64_step_shape, IH.
Qed.

Lemma b64_step_guarded (c : config) :
  Forall (within lower upper) x0 ->
  shape x0 c -> drawn_within rs c ->
  guarded lower upper c -> guarded lower upper (step1 c).
Proof.
  intros Hx0.
  destruct c as [p i j x xs L R r0 r1 logy logz m].
  unfold shape, drawn_within, guarded, step; destruct p; simpl.
  - intros _ _ _. split; [exact Hx0|discriminate].
  - intros _ _ (H & _). destruct (i <? steps)%Z; simpl; (split; [exact H|discriminate]).
  - intros _ _ (H & _).
    destruct (j <? length x0)%nat; simpl; (split; [exact H|discriminate]).
  - intros _ _ (H & _). destruct (dlt lower (L !!! j)); simpl;
      [destruct (dlt logz (logfn L params)); simpl|]; (split; [exact H|discriminate]).
  - intros (Hx & Hj) _ (H & _).
    assert (Hin : within lower upper (x !!! j)).
    { apply (Forall_lookup_total_1 (within lower upper) x j H). lia. }
    destruct Hin as (Hlo & Hhi).
    apply b64_dle_not_nan in Hlo as Hlo'. apply b64_dle_not_nan in Hhi as Hhi'.
    assert (Hedges : edges lower upper
      (Config Shrink i j x x L R (dmax (L !!! j) lower) (dmin (R !!! j) upper)
         logy logz m)).
    { split; simpl; [apply b64_dmax_lower|apply b64_dmin_upper]; tauto. }
    destruct (dlt (R !!! j) upper); simpl;
      [destruct (dlt logz (logfn R params)); simpl|];
      (split; [exact H|]); try discriminate; intros _; exact Hedges.
  - intros (Hx & Hj & d0 & ->) Hd (H & He).
    specialize (Hd eq_refl). destruct (He eq_refl) as (He0 & He1); simpl in *.
    destruct (runif_range rs r0 r1 m) as [d m1]; simpl in *.
    destruct Hd as (Hd0 & Hd1).
    apply b64_dle_not_nan in Hd0 as Hn0. apply b64_dle_not_nan in Hd1 as Hn1.
    destruct He0 as [He0|He0]; [tauto|]. destruct He1 as [He1|He1]; [tauto|].
    assert (Hin : within lower upper d).
    { split; eapply b64_dle_trans; eassumption. }
    rewrite list_insert_insert_eq.
    rewrite list_lookup_total_insert_eq by lia.
    destruct (dlt logz (logfn (<[j := d]> x) params)); simpl.
    + split; [|discriminate]. apply Forall_insert; assumption.
    + destruct Hin as (Hin0 & Hin1).
      destruct (dlt d (x !!! j)); simpl; (split; [exact H|]); intros _;
        split; simpl; auto.
  - intros _ _ H. exact H.
Qed.

Lemma b64_run_guarded (n : nat) (m : world) :
  Forall (within lower upper) x0 ->
  (forall k, (k < n)%nat -> drawn_within rs (runs k (init m))) ->
  guarded lower upper (runs n (init m)).
Proof.
  intros Hx0. induction n as [|n IH]; intros Hd.
  - split; [constructor|discriminate].
  - rewrite b64_run_succ. apply b64_step_guarded.
    + exact Hx0.
    + apply b64_run_shape.
    + apply Hd. lia.
    + apply IH. intros k Hk. apply Hd. lia.
Qed.

End Machine.




(** C3 fails on the code.  With [x0 = (1)], [w = 2^-51], bounds 0 and 2, a
    log-density that is 0 at 1 and [-inf] elsewhere, and the uniform
    variate 1/16, the shrinkage loop starts from
    [r0 = 1 - 2^-51], [r1 = 1 + 2^-51]; the draw
    [r0 + (r1 - r0) / 16] rounds to [r0], is rejected, and line 82 assigns
    [r0] the value it already has: the interval is the same after the
    rejected draw. *)
Lemma rejected_draw_can_leave_the_interval :
  let c := run (steady sixteenth) spike [] [of_Z 1] 1 tiny (of_Z 0) (of_Z 2)
             6 (init start) in
  let c' := step (steady sixteenth) spike [] [of_Z 1] 1 tiny (of_Z 0)
              (of_Z 2) c in
  let d := fst (runif_range (steady sixteenth) (r0 c) (r1 c) (env c)) in
  pc c = Shrink /\ pc c' = Shrink /\
  (r0 c < r1 c)%B /\ d = r0 c /\
  (spike (<[j c := d]> (x c)) [] >? logz c)%B = false /\
  n_unif (env c') = S (n_unif (env c)) /\
  r0 c' = r0 c /\ r1 c' = r1 c /\
  ((r1 c' - r0 c') <? (r1 c - r0 c))%B = false.
Proof. vm_compute. repeat split; reflexivity. Qed.

(** C3, as the code has it.  At every step of every run that stands in
    the shrinkage loop, whatever the input, with [d] the draw
    [runif(1, r0, r1)] of that step: either the draw is rejected ([logfn]
    at [x] with coordinate [j] set to [d] does not exceed [logz]), control
    stays in the loop with [x], [j] and [logy] unchanged, and exactly one
    end of the interval is replaced by the draw, [r0] when [d < x[j]] and
    [r1] otherwise, so that the interval does not grow when the draw lies
    within it and is strictly narrowed when the draw lies strictly inside
    it; or the loop is left, and then the draw
    was accepted: its log-density strictly exceeds [logz], [x] becomes [x]
    with coordinate [j] set to [d], and [logy] becomes that log-density. *)
Theorem rejected_draw_replaces_one_end
    (rs : seed) (logfn : list double -> list double -> double)
    (params x0 : list double) (steps : Z) (w lower upper : double)
    (n : nat) (m : world) :
  let c := run rs logfn params x0 steps w lower upper n (init m) in
  let c' := step rs logfn params x0 steps w lower upper c in
  let d := fst (runif_range rs (r0 c) (r1 c) (env c)) in
  pc c = Shrink ->
  (pc c' = Shrink /\ x c' = x c /\ j c' = j c /\ logy c' = logy c /\
   (logfn (<[j c := d]> (x c)) params >? logz c)%B = false /\
   ((d < x c !!! j c)%B /\ r0 c' = d /\ r1 c' = r1 c \/
    (d <? x c !!! j c)%B = false /\ r0 c' = r0 c /\ r1 c' = d) /\
   ((r0 c <= d)%B -> (d <= r1 c)%B ->
    (r0 c <= r0 c')%B /\ (r1 c' <= r1 c)%B) /\
   ((r0 c < d)%B -> (d < r1 c)%B ->
    (r0 c < r0 c')%B /\ r1 c' = r1 c \/
    r0 c' = r0 c /\ (r1 c' < r1 c)%B)) \/
  (pc c' = Coord /\ x c' = <[j c := d]> (x c) /\ j c' = S (j c) /\
   x c' !!! j c = d /\
   (logfn (x c') params >? logz c)%B = true /\
   logy c' = logfn (x c') params).
Proof.
  intros c c' d.
  pose proof (b64_run_shape rs logfn params x0 steps w lower upper n m) as Hs.
  fold c in Hs. subst c' d. revert Hs. generalize c. clear. intros c.
  destruct c as [p i j x xs L R r0 r1 logy logz m].
  unfold shape, step; simpl. intros Hs ->; simpl in *.
  destruct Hs as (Hx & Hj & d0 & ->).
  destruct (runif_range rs r0 r1 m) as [d m1]; simpl.
  rewrite list_insert_insert_eq.
  rewrite list_lookup_total_insert_eq by lia.
  destruct (dlt logz (logfn (<[j := d]> x) params)) eqn:E; simpl.
  - right. rewrite list_lookup_total_insert_eq by lia. auto 10.
  - left.
    assert (Hnest : forall a b : double,
              (a = d /\ b = r1) \/ (a = r0 /\ b = d) ->
              (r0 <= d)%B -> (d <= r1)%B -> (r0 <= a)%B /\ (b <= r1)%B).
    { intros a b [(-> & ->)|(-> & ->)] H0 H1;
        apply b64_dle_not_nan in H0 as Hn0;
        apply b64_dle_not_nan in H1 as Hn1;
        split; auto; apply b64_dle_refl; tauto. }
    destruct (dlt d (x !!! j)) eqn:Ed; simpl.
    + repeat split; auto; apply (Hnest d r1); auto.
    + repeat split; auto; apply (Hnest r0 d); auto.
Qed.

Lemma rejected_draw_replaces_one_end_witness :
  let c := run (steady sixteenth) hill [] [of_Z 0] 1 (of_Z 4) NegInf PosInf
             6 (init start) in
  let c' := step (steady sixteenth) hill [] [of_Z 0] 1 (of_Z 4) NegInf
              PosInf c in
  let d := fst (runif_range (steady sixteenth) (r0 c) (r1 c) (env c)) in
  (pc c = Shrink /\ (r0 c < d)%B /\ (d < r1 c)%B /\ (r0 c < r0 c')%B) /\
  ((pc c' = Shrink /\ x c' = x c /\ j c' = j c /\ logy c' = logy c /\
    (hill (<[j c := d]> (x c)) [] >? logz c)%B = false /\
    ((d < x c !!! j c)%B /\ r0 c' = d /\ r1 c' = r1 c \/
     (d <? x c !!! j c)%B = false /\ r0 c' = r0 c /\ r1 c' = d) /\
    ((r0 c <= d)%B -> (d <= r1 c)%B ->
     (r0 c <= r0 c')%B /\ (r1 c' <= r1 c)%B) /\
    ((r0 c < d)%B -> (d < r1 c)%B ->
     (r0 c < r0 c')%B /\ r1 c' = r1 c \/
     r0 c' = r0 c /\ (r1 c' < r1 c)%B)) \/
   (pc c' = Coord /\ x c' = <[j c := d]> (x c) /\ j c' = S (j c) /\
    x c' !!! j c = d /\
    (hill (x c') [] >? logz c)%B = true /\
    logy c' = hill (x c') [])).
Proof.
  intros c c' d.
  assert (H : pc c = Shrink /\ (r0 c < d)%B /\ (d < r1 c)%B /\
              (r0 c < r0 c')%B).
  { vm_compute. repeat split; reflexivity. }
  split; [exact H|].
  exact (rejected_draw_replaces_one_end (steady sixteenth) hill []
           [of_Z 0] 1 (of_Z 4) NegInf PosInf 6 start (proj1 H)).
Defined.

(** C4 fails on the code.  With [x0 = (0)], [w = 1e308], a constant
    log-density and no bounds, [L[0]] and [R[0]] overflow to [-inf] and
    [+inf], [runif(1, -inf, +inf)] is NaN, the draw is accepted and the
    call returns [(NaN)].  With the bounds -1.7e308 and 1.7e308 the
    difference [r1 - r0] overflows inside [runif], the draw is [+inf],
    above [upper], and the call returns [(+inf)]. *)
Lemma overflow_leaves_the_bounds :
  (within NegInf PosInf (of_Z 0) /\
   slice_sample_cpp (steady half) level [] [of_Z 0] 1 big NegInf PosInf
     30 start = Some ([NaN], World 1 1) /\
   ~ within NegInf PosInf NaN) /\
  (within (dopp huge) huge (of_Z 0) /\
   slice_sample_cpp (steady half) level [] [of_Z 0] 1 big (dopp huge) huge
     30 start = Some ([PosInf], World 1 2) /\
   ~ within (dopp huge) huge PosInf).
Proof.
  unfold within. vm_compute.
  repeat split; try reflexivity; intros [? ?]; discriminate.
Qed.

(** C4, as the code has it.  If every coordinate of [x0] lies between
    [lower] and [upper], and every draw [runif(1, r0, r1)] of line 77 made
    in the first [n] steps of the run lies between the [r0] and [r1] it
    was drawn from, then after [n] steps every coordinate of the working
    position lies between [lower] and [upper]; and a call that returns
    within [n] steps returns a vector of the length of [x0] that lies
    between the bounds. *)
Theorem bounds_respected_while_draws_stay_inside
    (rs : seed) (logfn : list double -> list double -> double)
    (params x0 : list double) (steps : Z) (w lower upper : double)
    (n : nat) (m : world) :
  Forall (within lower upper) x0 ->
  (forall k : nat, (k < n)%nat ->
     drawn_within rs (run rs logfn params x0 steps w lower upper k (init m))) ->
  Forall (within lower upper)
    (x (run rs logfn params x0 steps w lower upper n (init m))) /\
  (forall (v : list double) (m' : world),
     slice_sample_cpp rs logfn params x0 steps w lower upper n m
       = Some (v, m') ->
     length v = length x0 /\ Forall (within lower upper) v).
Proof.
  intros Hx0 Hd.
  pose proof (b64_run_guarded rs logfn params x0 steps w lower upper n m
                Hx0 Hd) as (Hg & _).
  split; [exact Hg|].
  intros v m'. unfold slice_sample_cpp.
  pose proof (b64_run_shape rs logfn params x0 steps w lower upper n m) as Hs.
  unfold shape in Hs.
  destruct (pc (run rs logfn params x0 steps w lower upper n (init m)));
    try discriminate.
  intros [= <- <-]. auto.
Qed.

Lemma bounds_respected_while_draws_stay_inside_witness :
  (Forall (within (of_Z 0) (of_Z 1)) [half] /\
   slice_sample_cpp (steady half) hill [] [half] 2 (of_Z 1) (of_Z 0) (of_Z 1)
     14 start = Some ([half], World 2 4)) /\
  length [half] = length [half] /\
  Forall (within (of_Z 0) (of_Z 1)) [half].
Proof.
  assert (H0 : Forall (within (of_Z 0) (of_Z 1)) [half]).
  { repeat constructor. }
  assert (H1 : slice_sample_cpp (steady half) hill [] [half] 2 (of_Z 1)
                 (of_Z 0) (of_Z 1) 14 start = Some ([half], World 2 4)).
  { vm_compute. reflexivity. }
  split; [split; assumption|].
  refine (proj2 (bounds_respected_while_draws_stay_inside (steady half) hill
                   [] [half] 2 (of_Z 1) (of_Z 0) (of_Z 1) 14 start H0 _)
            [half] (World 2 4) H1).
  intros k Hk.
  do 14 (destruct k as [|k];
         [vm_compute; intros H; first [discriminate H | split; reflexivity]|]).
  lia.
Defined.

(** A width that an end of the interval absorbs ([L[j] - w == L[j]], as
    for [L[j] = 1e16] and [w = 1]) stalls the stepping-out loop: once the
    test of line 66 holds in such a state it holds for ever, and the call
    does not return, whatever the fuel; likewise for the loop of line 68
    when [R[j] + w == R[j]]. *)
Theorem stepping_out_stalls_on_an_absorbed_width
    (rs : seed) (logfn : list double -> list double -> double)
    (params x0 : list double) (steps : Z) (w lower upper : double)
    (n : nat) (m : world) :
  let c := run rs logfn params x0 steps w lower upper n (init m) in
  (pc c = ExpandLeft /\ (j c < length (L c))%nat /\
   (L c !!! j c >? lower)%B = true /\
   (logfn (L c) params >? logz c)%B = true /\
   (L c !!! j c - w)%B = L c !!! j c) \/
  (pc c = ExpandRight /\ (j c < length (R c))%nat /\
   (R c !!! j c <? upper)%B = true /\
   (logfn (R c) params >? logz c)%B = true /\
   (R c !!! j c + w)%B = R c !!! j c) ->
  forall fuel : nat,
    slice_sample_cpp rs logfn params x0 steps w lower upper fuel m = None.
Proof.
  intros c H. apply (b64_never_returns rs logfn params x0 steps w lower upper n).
  - fold c. destruct c as [p i j x xs L R r0 r1 logy logz e]; simpl in *.
    destruct H as [(-> & Hj & H1 & H2 & H3) | (-> & Hj & H1 & H2 & H3)];
      unfold step; simpl; rewrite H1, H2, H3; f_equal;
      apply list_insert_id, list_lookup_lookup_total_lt; exact Hj.
  - fold c. destruct H as [(-> & _) | (-> & _)]; discriminate.
Qed.

Lemma stepping_out_stalls_on_an_absorbed_width_witness :
  let c := run (steady half) level [] [of_Z (10 ^ 16)] 1 (of_Z 1)
             (of_Z (10 ^ 16 - 4)) (of_Z (10 ^ 16 + 4)) 3 (init start) in
  (pc c = ExpandLeft /\ L c = [of_Z (10 ^ 16)] /\
   (L c !!! j c - of_Z 1)%B = L c !!! j c) /\
  forall fuel : nat,
    slice_sample_cpp (steady half) level [] [of_Z (10 ^ 16)] 1 (of_Z 1)
      (of_Z (10 ^ 16 - 4)) (of_Z (10 ^ 16 + 4)) fuel start = None.
Proof.
  intros c.
  split; [vm_compute; repeat split; reflexivity|].
  apply (stepping_out_stalls_on_an_absorbed_width (steady half) level []
           [of_Z (10 ^ 16)] 1 (of_Z 1) (of_Z (10 ^ 16 - 4))
           (of_Z (10 ^ 16 + 4)) 3 start).
  left. vm_compute. repeat split; reflexivity.
Defined.

End Binary64Facts.

(** C5.  With [steps = 0] the call returns [x0] itself after the two
    steps of entry and loop test: no variate is consumed, the only
    evaluation of the log-density is the one of line 54, and control
    never reaches the loop over the coordinates. *)
Theorem zero_steps_returns_x0
    (rs : seed) (logfn : NumericVector -> NumericVector -> double)
    (params x0 : NumericVector) (w lower upper : double)
    (fuel : nat) (m : world) :
  slice_sample_cpp rs logfn params x0 0 w lower upper (S (S fuel)) m
    = Some (x0, note (Call Entry x0 params) m) /\
  forall n : nat,
    pc (run rs logfn params x0 0 w lower upper n (init m)) <> Coord.
Proof.
  assert (H2 : run rs logfn params x0 0 w lower upper 2 (init m)
               = Config Done 0 0 x0 [] x0 x0 NaN NaN (logfn x0 params) NaN
                   (note (Call Entry x0 params) m)) by reflexivity.
  split.
  - unfold slice_sample_cpp.
    change (S (S fuel)) with (2 + fuel)%nat.
    rewrite run_add, H2, run_Done by reflexivity. reflexivity.
  - intros [|[|n]]; try discriminate.
    change (S (S n)) with (2 + n)%nat.
    rewrite run_add, H2, run_Done by reflexivity. discriminate.
Qed.

(** ** Degenerate inputs *)

Section Degenerate.
Variable rs : seed.
Variable logfn : NumericVector -> NumericVector -> double.
Variables params x0 : NumericVector.
Variable steps : Z.
Variables w lower upper : double.
Hypothesis Hsteps : (0 < steps)%Z.
Hypothesis Hx0 : x0 <> [].

Local Abbreviation step1 := (step rs logfn params x0 steps w lower upper).
Local Abbreviation runs := (run rs logfn params x0 steps w lower upper).

Lemma step_stuck (c : config NumericVector) :
  logfn x0 params = NaN -> stuck c -> stuck (step1 c).
Proof.
  intros Hnan.
  destruct c as [p i j x xs L R r0 r1 logy logz m].
  unfold stuck, step; simpl. destruct p; simpl.
  - auto.
  - intros [-> ->]. apply Z.ltb_lt in Hsteps. rewrite Hsteps. simpl. auto.
  - intros [-> ->]. destruct x0 as [|a l]; [congruence|]. reflexivity.
  - intros ->. destruct (dlt lower (L !!! j)); reflexivity.
  - intros ->. destruct (dlt (R !!! j) upper); reflexivity.
  - intros ->. destruct (runif_range rs r0 r1 m) as [d m1]; simpl.
    destruct (dlt (<[j:=d]> xs !!! j) (x !!! j)); reflexivity.
  - auto.
Qed.

Lemma run_stuck (n : nat) (c : config NumericVector) :
  logfn x0 params = NaN -> stuck c -> stuck (runs n c).
Proof.
  intros Hnan. revert c.
  induction n as [|n IH]; intros c H; simpl; [exact H|].
  apply IH, step_stuck; assumption.
Qed.

Lemma first_threshold (m : world) :
  let c := runs 3 (init m) in
  pc c = ExpandLeft /\ i c = 0%Z /\ j c = 0%nat /\
  logz c = (logfn x0 params - Finite (exp_rand rs (n_exp m)))%D.
Proof.
  destruct x0 as [|a l]; [congruence|].
  apply Z.ltb_lt in Hsteps.
  cbn [run]. unfold step at 3. cbn. unfold step at 2. cbn. rewrite Hsteps.
  unfold step. cbn. repeat split.
Qed.

End Degenerate.

Lemma inside_degenerate (b v : double) : inside b b v -> (v ==? b)%D = true.
Proof.
  intros (q & -> & Hlo & Hhi).
  destruct b as [p| | |]; try discriminate.
  apply dle_Finite in Hlo, Hhi. simpl. apply Qeq_bool_iff.
  apply Qle_antisym; assumption.
Qed.

(** C6, as the code has it.  [slice_sample_cpp] does not test its input
    and raises nothing.  For a call with at least one sweep and one
    coordinate: if the log-density at [x0] is NaN, the call never returns,
    whatever the fuel; if it is [-inf], the first threshold [logz] is
    [-inf] and the first coordinate update is carried out with it; and if
    [lower] and [upper] are equal, then under the input contract the run
    goes on as for any other bounds, every coordinate of the working
    position staying equal to the bound. *)
Theorem degenerate_input_is_not_refused
    (rs : seed) (logfn : NumericVector -> NumericVector -> double)
    (params x0 : NumericVector) (steps : Z) (w lower upper : double) :
  (0 < steps)%Z -> x0 <> [] ->
  (logfn x0 params = NaN ->
   forall (fuel : nat) (m : world),
     slice_sample_cpp rs logfn params x0 steps w lower upper fuel m = None) /\
  (logfn x0 params = NegInf ->
   forall m : world,
     let c := run rs logfn params x0 steps w lower upper 3 (init m) in
     pc c = ExpandLeft /\ j c = 0%nat /\ logz c = NegInf) /\
  (lower = upper -> unit_uniforms rs -> positive w ->
   Forall (inside lower upper) x0 ->
   forall (n : nat) (m : world),
     Forall (fun v => (v ==? lower)%D = true)
       (x (run rs logfn params x0 steps w lower upper n (init m)))).
Proof.
  intros Hsteps Hx0. split; [|split].
  - intros Hnan fuel m. unfold slice_sample_cpp.
    pose proof (run_stuck rs logfn params x0 steps w lower upper Hsteps Hx0
                  fuel (init m) Hnan I) as H.
    unfold stuck in H.
    destruct (pc (run rs logfn params x0 steps w lower upper fuel (init m)));
      try reflexivity.
    destruct H.
  - intros Hinf m.
    destruct (first_threshold rs logfn params x0 steps w lower upper
                Hsteps Hx0 m) as (Hpc & _ & Hj & Hz).
    cbv zeta. rewrite Hpc, Hj, Hz, Hinf. auto.
  - intros <- Hrs Hw Hin n m.
    eapply Forall_impl;
      [apply reachable_inside; eassumption|].
    intros v. apply inside_degenerate.
Qed.

Lemma degenerate_input_is_not_refused_witness :
  slice_sample_cpp half_seed undefined [] [Finite 0] 1 (Finite 1)
    NegInf PosInf 1000 start = None.
Proof.
  apply (proj1 (degenerate_input_is_not_refused half_seed undefined []
                  [Finite 0] 1 (Finite 1) NegInf PosInf
                  ltac:(by_computation) ltac:(by_computation))).
  reflexivity.
Defined.

(** C6 fails on the code.  With [lower = upper = 1] and [x0 = (1)] the
    call returns [(1)]; with a log-density that is [-inf] at [x0 = (0)]
    the call draws with the threshold [-inf] and returns [(-1)]; with a
    log-density that is NaN the call is still in the shrinkage loop after
    1000 steps.  No call fails. *)
Lemma degenerate_input_runs :
  slice_sample_cpp half_seed hill [] [Finite 1] 1 (Finite 1)
    (Finite 1) (Finite 1) 10 start
  = Some ([Finite 1],
          World 1 1 [Call Entry [Finite 1] []; Call Shrink [Finite 1] []]) /\
  slice_sample_cpp half_seed hole [] [Finite 0] 1 (Finite 1)
    (Finite (-2)) (Finite 2) 20 start
  = Some ([Finite (-1)],
          World 1 3
            [Call Entry [Finite 0] [];
             Call ExpandLeft [Finite (-1 # 2)] [];
             Call ExpandLeft [Finite (-3 # 2)] [];
             Call ExpandRight [Finite (1 # 2)] [];
             Call ExpandRight [Finite (3 # 2)] [];
             Call Shrink [Finite 0] [];
             Call Shrink [Finite (-1)] []]) /\
  logz (run half_seed hole [] [Finite 0] 1 (Finite 1)
          (Finite (-2)) (Finite 2) 3 (init start)) = NegInf /\
  pc (run half_seed undefined [] [Finite 0] 1 (Finite 1)
        NegInf PosInf 1000 (init start)) = Shrink.
Proof. vm_compute. repeat split; reflexivity. Qed.

(** ** The batch drivers *)

(** A call that returns has run the entry step: its first evaluation of
    the log-density is at [x0]. *)
Lemma slice_sample_cpp_evals
    (rs : seed) (logfn : NumericVector -> NumericVector -> double)
    (params x0 : NumericVector) (steps : Z) (w lower upper : double)
    (fuel : nat) (m m' : world) (v : NumericVector) :
  slice_sample_cpp rs logfn params x0 steps w lower upper fuel m
    = Some (v, m') ->
  exists rest, evals m' = evals m ++ Call Entry x0 params :: rest.
Proof.
  unfold slice_sample_cpp. destruct fuel as [|n]; [discriminate|].
  simpl run.
  destruct (run_evals rs logfn params x0 steps w lower upper n
              (step rs logfn params x0 steps w lower upper (init m)))
    as (rest & He & _).
  destruct (pc (run rs logfn params x0 steps w lower upper n
                  (step rs logfn params x0 steps w lower upper (init m))));
    try discriminate.
  intros [= <- <-]. exists rest. rewrite He. simpl.
  rewrite <- app_assoc. reflexivity.
Qed.

Section Loops.
Variable body : nat -> NumericVector -> M NumericVector.

Lemma for_loop_ret (from count : nat) (out : NumericVector) (m : world) :
  (forall i o, body i o = ret o) ->
  for_loop body from count out m = Some (out, m).
Proof.
  intros H. revert from. induction count as [|n IH]; intros from; simpl.
  - reflexivity.
  - unfold bind. rewrite H. simpl. apply IH.
Qed.

Lemma for_loop_split (from n1 n2 : nat) (out : NumericVector) (m : world) :
  for_loop body from (n1 + n2) out m
  = match for_loop body from n1 out m with
    | Some (o, m1) => for_loop body (from + n1) n2 o m1
    | None => None
    end.
Proof.
  revert from out m. induction n1 as [|n IH]; intros from out m; simpl.
  - rewrite Nat.add_0_r. reflexivity.
  - unfold bind. destruct (body from out m) as [[o m1]|]; [|reflexivity].
    rewrite IH. replace (S from + n)%nat with (from + S n)%nat by lia.
    reflexivity.
Qed.

(** A loop whose body writes to its own slot only leaves the slots below
    its first index, and the length of the vector, as they were. *)
Lemma for_loop_frame (from count : nat) (out out' : NumericVector)
    (m m' : world) :
  (forall i o mi o' mi', body i o mi = Some (o', mi') ->
     exists d, o' = <[i := d]> o \/ o' = o) ->
  for_loop body from count out m = Some (out', m') ->
  length out' = length out /\
  forall k, (k < from)%nat -> out' !!! k = out !!! k.
Proof.
  intros Hbody. revert from out m.
  induction count as [|n IH]; intros from out m; simpl.
  - intros [= <- <-]. auto.
  - unfold bind. destruct (body from out m) as [[o m1]|] eqn:E; [|discriminate].
    intros H. destruct (IH _ _ _ H) as (Hlen & Hk).
    destruct (Hbody _ _ _ _ _ E) as (d & [-> | ->]).
    + rewrite length_insert in Hlen. split; [exact Hlen|].
      intros k Hlt. rewrite Hk by lia.
      apply list_lookup_total_insert_ne. lia.
    + split; [exact Hlen|]. intros k Hlt. apply Hk. lia.
Qed.

End Loops.

Section DriverFacts.
Variable rs : seed.
Variable lib : Rmath.
Variable fuel : nat.

Lemma store_first_writes (i : nat) (out o' : NumericVector)
    (call : M NumericVector) (m m' : world) :
  store_first i out call m = Some (o', m') ->
  exists d, o' = <[i := d]> out \/ o' = out.
Proof.
  unfold store_first, bind, ret. destruct (call m) as [[v m1]|]; [|discriminate].
  intros [= <- <-]. eauto.
Qed.

Lemma pcnbd_slice_sample_at_writes (what : string)
    (x tx Tcal litt k lambda mu tau : NumericVector)
    (t gamma r alpha s beta : double)
    (i : nat) (o o' : NumericVector) (mi mi' : world) :
  pcnbd_slice_sample_at rs lib fuel what x tx Tcal litt k lambda mu tau
    t gamma r alpha s beta i o mi = Some (o', mi') ->
  exists d, o' = <[i := d]> o \/ o' = o.
Proof.
  unfold pcnbd_slice_sample_at.
  destruct (String.eqb what "k"); [apply store_first_writes|].
  destruct (String.eqb what "lambda"); [apply store_first_writes|].
  destruct (String.eqb what "tau").
  - destruct (too_flat lib tx k lambda i); [|apply store_first_writes].
    destruct (runif_range rs (tx !!! i) (Tcal !!! i) mi) as [d m1].
    intros [= <- <-]. eauto.
  - intros [= <- <-]. exists NaN. auto.
Qed.

End DriverFacts.

(** C8.  When [what] is none of the names a driver tests for, the driver
    returns the vector of [N] zeros it allocated and leaves the world as
    it found it: no variate was drawn and the log-density was not
    evaluated, for any record. *)
Theorem unknown_selector_leaves_output_unset
    (rs : seed) (lib : Rmath) (fuel : nat) (what : string)
    (x tx Tcal litt k lambda mu tau : NumericVector)
    (t gamma r alpha s beta : double) (m : world) :
  (what <> "lambda"%string -> what <> "mu"%string ->
   slice_sample_ma_liu rs lib fuel what x tx Tcal lambda mu r alpha s beta m
     = Some (zeros (length x), m)) /\
  (what <> "k"%string -> what <> "lambda"%string -> what <> "tau"%string ->
   pcnbd_slice_sample rs lib fuel what x tx Tcal litt k lambda mu tau
     t gamma r alpha s beta m
     = Some (zeros (length x), m)).
Proof.
  split.
  - intros H1 H2. apply for_loop_ret. intros i o.
    unfold slice_sample_ma_liu_at.
    apply String.eqb_neq in H1, H2. rewrite H1, H2. reflexivity.
  - intros H1 H2 H3. apply for_loop_ret. intros i o.
    unfold pcnbd_slice_sample_at.
    apply String.eqb_neq in H1, H2, H3. rewrite H1, H2, H3. reflexivity.
Qed.

Lemma unknown_selector_leaves_output_unset_witness :
  slice_sample_ma_liu half_seed crude 100 "tau"
    [Finite 2; Finite 0] [Finite 8; Finite 3] [Finite 14; Finite 9]
    [Finite 1; Finite 2] [Finite (1 # 100); Finite (1 # 10)]
    (Finite 1) (Finite 1) (Finite 1) (Finite 1) start
  = Some ([Finite 0; Finite 0], start) /\
  pcnbd_slice_sample half_seed crude 100 "mu"
    [Finite 2; Finite 0] [Finite 8; Finite 3] [Finite 14; Finite 9]
    [Finite 0; Finite 0] [Finite 1; Finite 1] [Finite 1; Finite 2]
    [Finite (1 # 100); Finite (1 # 10)] [Finite 9; Finite 4]
    (Finite 1) (Finite 1) (Finite 1) (Finite 1) (Finite 1) (Finite 1) start
  = Some ([Finite 0; Finite 0], start).
Proof.
  split.
  - apply (proj1 (unknown_selector_leaves_output_unset half_seed crude 100
                    "tau" [Finite 2; Finite 0] [Finite 8; Finite 3]
                    [Finite 14; Finite 9] [] [] [Finite 1; Finite 2]
                    [Finite (1 # 100); Finite (1 # 10)] []
                    (Finite 0) (Finite 0) (Finite 1) (Finite 1) (Finite 1)
                    (Finite 1) start)); discriminate.
  - apply (proj2 (unknown_selector_leaves_output_unset half_seed crude 100
                    "mu" [Finite 2; Finite 0] [Finite 8; Finite 3]
                    [Finite 14; Finite 9] [Finite 0; Finite 0]
                    [Finite 1; Finite 1] [Finite 1; Finite 2]
                    [Finite (1 # 100); Finite (1 # 10)] [Finite 9; Finite 4]
                    (Finite 1) (Finite 1) (Finite 1) (Finite 1) (Finite 1)
                    (Finite 1) start)); discriminate.
Defined.

(** Evaluates the tests of a driver on a known selector. *)
Ltac decide_selector :=
  repeat match goal with
         | |- context [String.eqb ?a ?b] =>
             let v := eval vm_compute in (String.eqb a b) in
             change (String.eqb a b) with v
         end;
  cbv iota.

(** C9.  In a call of [pcnbd_slice_sample] for "tau" that returns, take a
    record [i] for which [Rf_pgamma(tx[i], k[i], 1/(k[i]*lambda[i]), 0, 1)
    < -100].  With [mi] the world in which the loop reaches the record:
    the loop body returns [out] with slot [i] set to
    [runif(1, tx[i], Tcal[i])[0]] drawn in [mi], it adds no evaluation of
    the log-density to the record (the sampler, which evaluates it on
    entry, was not called), and the vector returned by the driver holds
    that draw in slot [i]. *)
Theorem flat_tau_is_drawn_uniformly
    (rs : seed) (lib : Rmath) (fuel : nat)
    (x tx Tcal litt k lambda mu tau : NumericVector)
    (t gamma r alpha s beta : double)
    (i : nat) (m m' : world) (out : NumericVector) :
  (i < length x)%nat ->
  too_flat lib tx k lambda i = true ->
  pcnbd_slice_sample rs lib fuel "tau" x tx Tcal litt k lambda mu tau
    t gamma r alpha s beta m = Some (out, m') ->
  exists (oi : NumericVector) (mi : world),
    let body := pcnbd_slice_sample_at rs lib fuel "tau" x tx Tcal litt k
                  lambda mu tau t gamma r alpha s beta in
    let draw := runif_range rs (tx !!! i) (Tcal !!! i) mi in
    for_loop body 0 i (zeros (length x)) m = Some (oi, mi) /\
    body i oi mi = Some (<[i := fst draw]> oi, snd draw) /\
    evals (snd draw) = evals mi /\
    out !!! i = fst draw.
Proof.
  intros Hi Hflat. unfold pcnbd_slice_sample.
  replace (length x) with (i + S (length x - S i))%nat at 1 by lia.
  rewrite for_loop_split.
  set (body := pcnbd_slice_sample_at rs lib fuel "tau" x tx Tcal litt k
                 lambda mu tau t gamma r alpha s beta).
  destruct (for_loop body 0 i (zeros (length x)) m) as [[oi mi]|] eqn:Hpre;
    [|discriminate].
  intros Hpost. exists oi, mi. cbv zeta.
  assert (Hbody : body i oi mi
                  = Some (<[i := fst (runif_range rs (tx !!! i) (Tcal !!! i) mi)]> oi,
                          snd (runif_range rs (tx !!! i) (Tcal !!! i) mi))).
  { unfold body, pcnbd_slice_sample_at. decide_selector. rewrite Hflat.
    destruct (runif_range rs (tx !!! i) (Tcal !!! i) mi); reflexivity. }
  simpl for_loop in Hpost. unfold bind at 1 in Hpost. rewrite Hbody in Hpost.
  assert (Hw : forall j o mj o' mj', body j o mj = Some (o', mj') ->
                 exists d, o' = <[j := d]> o \/ o' = o)
    by (intros; eapply pcnbd_slice_sample_at_writes; eassumption).
  destruct (for_loop_frame body _ _ _ _ _ _ Hw Hpre) as (Hlen & _).
  destruct (for_loop_frame body _ _ _ _ _ _ Hw Hpost) as (_ & Hk).
  split; [reflexivity|]. split; [exact Hbody|].
  split; [apply runif_range_evals|].
  rewrite Hk by lia. apply list_lookup_total_insert_eq.
  rewrite Hlen. unfold zeros. rewrite length_replicate. exact Hi.
Qed.

Lemma flat_tau_is_drawn_uniformly_witness :
  pcnbd_slice_sample quarter_seed crude 100 "tau"
    [Finite 0; Finite 0] [Finite 8; Finite 3] [Finite 14; Finite 9]
    [Finite 0; Finite 0] [Finite 1; Finite 1] [Finite 20; Finite 40]
    [Finite (1 # 100); Finite (1 # 100)] [Finite 0; Finite 9]
    (Finite 0) (Finite 0) (Finite 0) (Finite 0) (Finite 0) (Finite 0) start
  = Some ([Finite (19 # 2); Finite (9 # 2)], World 0 2 []) /\
  exists (oi : NumericVector) (mi : world),
    let body := pcnbd_slice_sample_at quarter_seed crude 100 "tau"
                  [Finite 0; Finite 0] [Finite 8; Finite 3]
                  [Finite 14; Finite 9] [Finite 0; Finite 0]
                  [Finite 1; Finite 1] [Finite 20; Finite 40]
                  [Finite (1 # 100); Finite (1 # 100)] [Finite 0; Finite 9]
                  (Finite 0) (Finite 0) (Finite 0) (Finite 0) (Finite 0)
                  (Finite 0) in
    let draw := runif_range quarter_seed
                  ([Finite 8; Finite 3] !!! 1%nat)
                  ([Finite 14; Finite 9] !!! 1%nat) mi in
    for_loop body 0 1 (zeros (length [Finite 0; Finite 0])) start
      = Some (oi, mi) /\
    body 1%nat oi mi = Some (<[1%nat := fst draw]> oi, snd draw) /\
    evals (snd draw) = evals mi /\
    [Finite (19 # 2); Finite (9 # 2)] !!! 1%nat = fst draw.
Proof.
  split; [vm_compute; reflexivity|].
  apply (flat_tau_is_drawn_uniformly quarter_seed crude 100
           [Finite 0; Finite 0] [Finite 8; Finite 3] [Finite 14; Finite 9]
           [Finite 0; Finite 0] [Finite 1; Finite 1] [Finite 20; Finite 40]
           [Finite (1 # 100); Finite (1 # 100)] [Finite 0; Finite 9]
           (Finite 0) (Finite 0) (Finite 0) (Finite 0) (Finite 0) (Finite 0)
           1%nat start (World 0 2 []) [Finite (19 # 2); Finite (9 # 2)]).
  - vm_compute; lia.
  - vm_compute; reflexivity.
  - vm_compute; reflexivity.
Defined.

Lemma Qeq_bool_false (e : Q) : ~ (e == 0)%Q -> Qeq_bool e 0 = false.
Proof.
  intros H. apply not_true_iff_false. rewrite Qeq_bool_iff. exact H.
Qed.

Lemma ddiv_Finite (a b : Q) :
  ~ (b == 0)%Q -> (Finite a / Finite b)%D = Finite (Qred (a / b)).
Proof. intros H. simpl. rewrite Qeq_bool_false by exact H. reflexivity. Qed.

(** With [k = 1], [lambda = 99/100] and [mu = 1/100] the log-density of
    tau is [-(mu + lambda) * tau + log(mu + lambda) = -tau], and this is
    what the stand-ins compute. *)
Lemma crude_post_tau (q : Q) :
  (0 <= q)%Q ->
  (pcnbd_post_tau crude [Finite q]
     [Finite 0; Finite 8; Finite 14; Finite 0;
      Finite 1; Finite (99 # 100); Finite (1 # 100); Finite 0;
      Finite 0; Finite 0; Finite 0; Finite 0; Finite 0; Finite 0]
   ==? Finite (- q))%D = true.
Proof.
  intros Hq. unfold pcnbd_post_tau.
  cbn [crude log Rf_pgamma Rf_dgamma lookup_total list_lookup_total Z.eqb].
  change (Finite 1 / (Finite 1 * Finite (99 # 100)))%D with (Finite (100 # 99)).
  assert (H1 : ~ (100 # 99 == 0)%Q) by discriminate.
  rewrite (ddiv_Finite q _ H1).
  cbn [dadd dmul dopp].
  assert (H2 : ~ (Qred (1 + Qred (q / (100 # 99))) == 0)%Q).
  { rewrite !Qred_correct. intros E.
    assert (q / (100 # 99) == q * (99 # 100))%Q by field.
    lra. }
  rewrite (ddiv_Finite 1 _ H2).
  cbn [dadd dmul dopp].
  assert (HA : (0 < 1 + q / (100 # 99))%Q).
  { assert (q / (100 # 99) == q * (99 # 100))%Q by field. lra. }
  assert (H3 : ~ (Qred ((100 # 99) * Qred (1 + Qred (q / (100 # 99)))) == 0)%Q).
  { rewrite !Qred_correct. intros E. nra. }
  rewrite (ddiv_Finite 1 _ H3).
  cbn [dadd dmul dopp].
  set (A := (1 + q / (100 # 99))%Q) in *.
  assert (HS : (Qred (Qred ((1 # 100) * Qred (1 / Qred (1 + Qred (q / (100 # 99))))) +
                 Qred (1 / Qred ((100 # 99) * Qred (1 + Qred (q / (100 # 99))))))
                == 1 / A)%Q).
  { rewrite !Qred_correct. fold A. field. lra. }
  assert (H4 : ~ (Qred (Qred ((1 # 100) * Qred (1 / Qred (1 + Qred (q / (100 # 99))))) +
                 Qred (1 / Qred ((100 # 99) * Qred (1 + Qred (q / (100 # 99))))))
                  == 0)%Q).
  { rewrite HS. intros E. assert (1 / A * A == 1)%Q by (field; lra). nra. }
  rewrite (ddiv_Finite 1 _ H4).
  cbn [dsub dadd dmul dopp deq].
  apply Qeq_bool_iff. rewrite HS, !Qred_correct. unfold A in *.
  field. lra.
Qed.

(** C7, as the code has it.  For a record [i] of a call for "tau" whose
    flatness test fails and whose [tau[i]] lies outside
    [[tx[i], Tcal[i]]], the loop body raises nothing: it calls the sampler
    from the midpoint [tx[i] + (Tcal[i] - tx[i]) / 2], with 6 sweeps, width
    [(Tcal[i] - tx[i]) / 2] and the bounds [tx[i]] and [Tcal[i]], and
    stores the first coordinate of the result in slot [i]; when it
    returns, the first evaluation of the log-density it has added to the
    record is at that midpoint. *)
Theorem tau_out_of_range_restarts_at_midpoint
    (rs : seed) (lib : Rmath) (fuel : nat)
    (x tx Tcal litt k lambda mu tau : NumericVector)
    (t gamma r alpha s beta : double)
    (i : nat) (out : NumericVector) (m : world) :
  too_flat lib tx k lambda i = false ->
  (tau !!! i >? Tcal !!! i)%D = true \/ (tau !!! i <? tx !!! i)%D = true ->
  let mid := (tx !!! i + (Tcal !!! i - tx !!! i) / Finite 2)%D in
  let params :=
    [x !!! i; tx !!! i; Tcal !!! i; litt !!! i;
     k !!! i; lambda !!! i; mu !!! i; tau !!! i;
     t; gamma; r; alpha; s; beta] in
  let body := pcnbd_slice_sample_at rs lib fuel "tau" x tx Tcal litt k
                lambda mu tau t gamma r alpha s beta in
  body i out m
  = store_first i out
      (slice_sample_cpp rs (pcnbd_post_tau lib) params [mid] 6
         ((Tcal !!! i - tx !!! i) / Finite 2)%D (tx !!! i) (Tcal !!! i) fuel)
      m /\
  forall (out' : NumericVector) (m' : world),
    body i out m = Some (out', m') ->
    exists (v : NumericVector) (rest : list call),
      out' = <[i := v !!! 0%nat]> out /\
      evals m' = evals m ++ Call Entry [mid] params :: rest.
Proof.
  intros Hflat Hout mid params body.
  assert (Hbody : body i out m
    = store_first i out
        (slice_sample_cpp rs (pcnbd_post_tau lib) params [mid] 6
           ((Tcal !!! i - tx !!! i) / Finite 2)%D (tx !!! i) (Tcal !!! i) fuel)
        m).
  { unfold body, pcnbd_slice_sample_at. decide_selector. rewrite Hflat.
    unfold tau_init.
    replace ((tau !!! i >? Tcal !!! i)%D || (tau !!! i <? tx !!! i)%D)
      with true; [reflexivity|].
    symmetry. apply orb_true_iff. exact Hout. }
  split; [exact Hbody|].
  intros out' m'. rewrite Hbody. unfold store_first, bind, ret.
  destruct (slice_sample_cpp rs (pcnbd_post_tau lib) params [mid] 6
              ((Tcal !!! i - tx !!! i) / Finite 2)%D (tx !!! i) (Tcal !!! i)
              fuel m) as [[v m1]|] eqn:E; [|discriminate].
  intros [= <- <-].
  destruct (slice_sample_cpp_evals _ _ _ _ _ _ _ _ _ _ _ _ E) as (rest & He).
  exists v, rest. auto.
Qed.

(** The inputs of the unit test of lines 446-456 for one customer, with
    [lambda = 0.99] in place of 1.2 so that [mu + lambda = 1] (see
    [crude_post_tau]): [tau = 0] lies below [tx = 8]. *)
Lemma tau_out_of_range_restarts_at_midpoint_witness :
  let params :=
    [Finite 0; Finite 8; Finite 14; Finite 0;
     Finite 1; Finite (99 # 100); Finite (1 # 100); Finite 0;
     Finite 0; Finite 0; Finite 0; Finite 0; Finite 0; Finite 0] in
  let body := pcnbd_slice_sample_at quarter_seed crude 200 "tau"
                [Finite 0] [Finite 8] [Finite 14] [Finite 0]
                [Finite 1] [Finite (99 # 100)] [Finite (1 # 100)] [Finite 0]
                (Finite 0) (Finite 0) (Finite 0) (Finite 0) (Finite 0)
                (Finite 0) in
  body 0%nat [Finite 0] start
  = store_first 0 [Finite 0]
      (slice_sample_cpp quarter_seed (pcnbd_post_tau crude) params
         [Finite 11] 6 (Finite 3) (Finite 8) (Finite 14) 200)
      start.
Proof.
  apply (proj1 (tau_out_of_range_restarts_at_midpoint quarter_seed crude 200
                  [Finite 0] [Finite 8] [Finite 14] [Finite 0]
                  [Finite 1] [Finite (99 # 100)] [Finite (1 # 100)] [Finite 0]
                  (Finite 0) (Finite 0) (Finite 0) (Finite 0) (Finite 0)
                  (Finite 0) 0%nat [Finite 0] start
                  ltac:(vm_compute; reflexivity)
                  ltac:(right; vm_compute; reflexivity))).
Defined.

(** C7 fails on the code.  On the inputs of the unit test of lines
    446-456 for one customer, with [lambda = 0.99] so that the
    log-density is [-tau], every exponential variate 1 and every uniform
    variate 1/4: [tau = 0] lies below [tx = 8] and the flatness test
    fails; the driver returns a draw, [143369/16384]; its evaluations of
    the log-density start at the midpoint 11 of [[8, 14]], which replaced
    [tau], and go on at 41/4 (line 66), 53/4 (line 68) and 149/16 (line
    78, accepted). *)
Lemma tau_out_of_range_is_replaced :
  let r := pcnbd_slice_sample quarter_seed crude 200 "tau"
             [Finite 0] [Finite 8] [Finite 14] [Finite 0]
             [Finite 1] [Finite (99 # 100)] [Finite (1 # 100)] [Finite 0]
             (Finite 0) (Finite 0) (Finite 0) (Finite 0) (Finite 0)
             (Finite 0) start in
  (([Finite 0] !!! 0%nat <? [Finite 8] !!! 0%nat)%D = true /\
   too_flat crude [Finite 8] [Finite 1] [Finite (99 # 100)] 0 = false) /\
  fst <$> r = Some [Finite (143369 # 16384)] /\
  (fun p => map (fun k => (site k, point k)) (take 4 (evals (snd p)))) <$> r
  = Some [(Entry, [Finite 11]); (ExpandLeft, [Finite (41 # 4)]);
          (ExpandRight, [Finite (53 # 4)]); (Shrink, [Finite (149 # 16)])].
Proof. vm_compute. repeat split; reflexivity. Qed.

(** ** The store *)

Lemma alloc_old (v : NumericVector) (h : heap) (a : nat) :
  (a < length h)%nat -> (h ++ [v]) !!! a = h !!! a.
Proof. apply lookup_total_app_l. Qed.

Lemma alloc_new (v : NumericVector) (h : heap) (a : nat) :
  a = length h -> (h ++ [v]) !!! a = v.
Proof.
  intros ->. rewrite lookup_total_app_r by lia. rewrite Nat.sub_diag.
  reflexivity.
Qed.

Lemma poke_same (a k : nat) (d : double) (h : heap) :
  (a < length h)%nat -> poke a k d h !!! a = <[k := d]> (h !!! a).
Proof. intros H. unfold poke. apply list_lookup_total_insert_eq, H. Qed.

Lemma poke_other (a b k : nat) (d : double) (h : heap) :
  a <> b -> poke a k d h !!! b = h !!! b.
Proof. intros H. unfold poke. apply list_lookup_total_insert_ne, H. Qed.

Lemma length_poke (a k : nat) (d : double) (h : heap) :
  length (poke a k d h) = length h.
Proof. unfold poke. apply length_insert. Qed.

Lemma take_poke (n a k : nat) (d : double) (h : heap) :
  (n <= a)%nat -> take n (poke a k d h) = take n h.
Proof. intros H. unfold poke. apply take_insert_ge, H. Qed.

Lemma length_alloc (v : NumericVector) (h : heap) :
  length (h ++ [v]) = S (length h).
Proof. rewrite length_app. simpl. lia. Qed.

Lemma take_old (n a : nat) (h h0 : heap) :
  take n h = h0 -> (a < n)%nat -> h !!! a = h0 !!! a.
Proof. intros <- H. symmetry. apply lookup_total_take_lt, H. Qed.

(** Rewrites reads of the store after allocations and writes. *)
Ltac store_simpl :=
  repeat first
    [ rewrite alloc_old by (rewrite ?length_alloc, ?length_poke; lia)
    | rewrite alloc_new by (rewrite ?length_alloc, ?length_poke; lia)
    | rewrite poke_same by (rewrite ?length_alloc, ?length_poke; lia)
    | rewrite poke_other by lia
    | rewrite take_poke by lia
    | rewrite take_app_le by (rewrite ?length_alloc, ?length_poke; lia) ];
  rewrite ?length_alloc, ?length_poke.

Lemma enter_private (h0 : heap) (m : world) : private h0 (enter h0 m).
Proof.
  unfold private, enter, alloc; simpl. store_simpl.
  rewrite take_ge by lia. repeat split; lia.
Qed.

Lemma enter_view (h0 : heap) (m : world) : view (enter h0 m) = init m.
Proof.
  unfold view, enter, alloc, init; simpl. store_simpl. reflexivity.
Qed.

Section StoreFacts.
Variable rs : seed.
Variable logfn : NumericVector -> NumericVector -> double.
Variables params x0 : nat.
Variable steps : Z.
Variables w lower upper : double.
Variable h0 : heap.
Hypothesis Hx0 : (x0 < length h0)%nat.
Hypothesis Hparams : (params < length h0)%nat.

Local Abbreviation mstep1 := (mstep rs logfn params x0 steps w lower upper).
Local Abbreviation step1 :=
  (step rs logfn (h0 !!! params) (h0 !!! x0) steps w lower upper).

Lemma mstep_private (st : machine) :
  private h0 st ->
  private h0 (mstep1 st) /\
  view (mstep1 st) = step1 (view st) /\
  exists l, passed (mstep1 st) = passed st ++ l /\
            Forall (fun pb => snd pb = params) l.
Proof.
  destruct st as [[p i j x xs L R r0 r1 logy logz m] h ps].
  unfold private; simpl.
  intros (Htake & Hx & Hxs & HL & HR & N1 & N2 & N3 & N4 & N5 & N6).
  assert (HX0 : h !!! x0 = h0 !!! x0) by (eapply take_old; eassumption).
  assert (HP : h !!! params = h0 !!! params) by (eapply take_old; eassumption).
  unfold mstep, step, view, clone, alloc, peek; simpl. destruct p; simpl.
  all: try destruct (runif_range rs r0 r1 m) as [d m1]; simpl.
  all: store_simpl; rewrite ?HX0, ?HP.
  all: repeat match goal with
              | |- context [if ?b then _ else _] => destruct b
              end; simpl.
  all: store_simpl; rewrite ?HX0, ?HP.
  all: (split; [repeat split; (lia || assumption)|split; [reflexivity|]]).
  all: eexists; (split; [first [symmetry; apply app_nil_r | reflexivity]|]).
  all: repeat constructor.
Qed.

Lemma mrun_private (n : nat) (st : machine) :
  private h0 st ->
  private h0 (mrun rs logfn params x0 steps w lower upper n st) /\
  view (mrun rs logfn params x0 steps w lower upper n st)
  = run rs logfn (h0 !!! params) (h0 !!! x0) steps w lower upper n (view st) /\
  exists l, passed (mrun rs logfn params x0 steps w lower upper n st)
            = passed st ++ l /\
            Forall (fun pb => snd pb = params) l.
Proof.
  revert st. induction n as [|n IH]; intros st H; simpl.
  - split; [exact H|]. split; [reflexivity|].
    exists []. rewrite app_nil_r. auto.
  - destruct (mstep_private st H) as (H1 & Hv & l1 & Hp1 & Hl1).
    destruct (IH _ H1) as (H2 & Hv2 & l2 & Hp2 & Hl2).
    split; [exact H2|]. split; [rewrite Hv2, Hv; reflexivity|].
    exists (l1 ++ l2). rewrite Hp2, Hp1, app_assoc.
    split; [reflexivity|]. apply Forall_app; auto.
Qed.

End StoreFacts.

(** [view_mrun]: run over a store, [slice_sample_cpp] computes what it
    computes over values. *)
Theorem view_mrun
    (rs : seed) (logfn : NumericVector -> NumericVector -> double)
    (params x0 : nat) (steps : Z) (w lower upper : double)
    (h0 : heap) (n : nat) (m : world) :
  (x0 < length h0)%nat -> (params < length h0)%nat ->
  view (mrun rs logfn params x0 steps w lower upper n (enter h0 m))
  = run rs logfn (h0 !!! params) (h0 !!! x0) steps w lower upper n (init m).
Proof.
  intros Hx0 Hp.
  destruct (mrun_private rs logfn params x0 steps w lower upper h0 Hx0 Hp
              n (enter h0 m) (enter_private h0 m)) as (_ & Hv & _).
  rewrite Hv, enter_view. reflexivity.
Qed.

(** C10.  Let [x0] and [params] refer to vectors of the caller's store
    [h0].  At every step of the call, and so when it returns: the
    caller's store is as it was, so [x0] and [params] hold their original
    values; the variable [x], whose reference the call returns, refers to
    a vector allocated by the call, which is none of the caller's, [x0]
    included; every call of the log-density was handed the reference
    [params] itself, and every evaluation was recorded with the original
    contents of [params]. *)
Theorem arguments_are_not_modified
    (rs : seed) (logfn : NumericVector -> NumericVector -> double)
    (params x0 : nat) (steps : Z) (w lower upper : double)
    (h0 : heap) (n : nat) (m : world) :
  (x0 < length h0)%nat -> (params < length h0)%nat ->
  let st := mrun rs logfn params x0 steps w lower upper n (enter h0 m) in
  take (length h0) (store st) = h0 /\
  store st !!! x0 = h0 !!! x0 /\
  store st !!! params = h0 !!! params /\
  (length h0 <= x (locals st) < length (store st))%nat /\
  x (locals st) <> x0 /\
  Forall (fun pb => snd pb = params) (passed st) /\
  exists l, evals (env (locals st)) = evals m ++ l /\
            Forall (fun k => bundle k = h0 !!! params) l.
Proof.
  intros Hx0 Hp st.
  destruct (mrun_private rs logfn params x0 steps w lower upper h0 Hx0 Hp
              n (enter h0 m) (enter_private h0 m))
    as ((Htake & Hx & _) & Hv & l & Hl & Hall).
  fold st in Htake, Hx, Hv, Hl.
  split; [exact Htake|].
  split; [eapply take_old; eassumption|].
  split; [eapply take_old; eassumption|].
  split; [exact Hx|]. split; [lia|].
  split; [rewrite Hl; exact Hall|].
  rewrite enter_view in Hv.
  destruct (run_evals rs logfn (h0 !!! params) (h0 !!! x0) steps w lower upper
              n (init m)) as (le & He & Hle).
  exists le. split; [|exact Hle].
  change (evals m) with (evals (env (init m))).
  rewrite <- He, <- Hv. reflexivity.
Qed.

Lemma arguments_are_not_modified_witness :
  let h0 := [[Finite 2; Finite 5]; [Finite (1 # 2)]] in
  let st := mrun half_seed hill 0 1 2 (Finite 1) (Finite (3 # 10))
              (Finite (4 # 5)) 40 (enter h0 start) in
  (pc (locals st) = Done /\ x (locals st) = 12%nat /\
   store st !!! 12%nat = [Finite (11 # 20)] /\
   passed st = [(6, 0); (9, 0); (11, 0)]%nat) /\
  take (length h0) (store st) = h0 /\
  store st !!! 1%nat = h0 !!! 1%nat /\
  store st !!! 0%nat = h0 !!! 0%nat /\
  (length h0 <= x (locals st) < length (store st))%nat /\
  x (locals st) <> 1%nat /\
  Forall (fun pb => snd pb = 0%nat) (passed st) /\
  exists l, evals (env (locals st)) = evals start ++ l /\
            Forall (fun k => bundle k = h0 !!! 0%nat) l.
Proof.
  cbv zeta. split; [vm_compute; repeat split; reflexivity|].
  apply (arguments_are_not_modified half_seed hill 0 1 2 (Finite 1)
           (Finite (3 # 10)) (Finite (4 # 5))
           [[Finite 2; Finite 5]; [Finite (1 # 2)]] 40 start);
    simpl; lia.
Defined.

Lemma view_mrun_witness :
  let h0 := [[Finite 2; Finite 5]; [Finite (1 # 2)]] in
  view (mrun half_seed hill 0 1 2 (Finite 1) (Finite (3 # 10))
          (Finite (4 # 5)) 40 (enter h0 start))
  = run half_seed hill (h0 !!! 0%nat) (h0 !!! 1%nat) 2 (Finite 1)
      (Finite (3 # 10)) (Finite (4 # 5)) 40 (init start).
Proof.
  cbv zeta.
  apply (view_mrun half_seed hill 0 1 2 (Finite 1) (Finite (3 # 10))
           (Finite (4 # 5)) [[Finite 2; Finite 5]; [Finite (1 # 2)]] 40 start);
    simpl; lia.
Defined.

(** ** What a returning call has consumed *)

Lemma runif_range_counts (rs : seed) (a b : double) (m : world) :
  n_exp (snd (runif_range rs a b m)) = n_exp m /\
  (n_unif m <= n_unif (snd (runif_range rs a b m)))%nat.
Proof.
  unfold runif_range.
  destruct (negb (R_FINITE a) || negb (R_FINITE b) || dlt b a); [simpl; lia|].
  destruct (deq a b); simpl; lia.
Qed.

Section Tally.
Variable rs : seed.
Variable logfn : NumericVector -> NumericVector -> double.
Variables params x0 : NumericVector.
Variable steps : Z.
Variables w lower upper : double.
Variable m : world.

Local Abbreviation step1 := (step rs logfn params x0 steps w lower upper).
Local Abbreviation runs := (run rs logfn params x0 steps w lower upper).

Lemma step_spent (c : config NumericVector) :
  spent x0 steps m c -> spent x0 steps m (step1 c).
Proof.
  destruct c as [p i j x xs L R r0 r1 logy logz e].
  unfold spent, tally, step; simpl. destruct p; simpl.
  - intros ->. simpl. rewrite length_app. simpl. lia.
  - intros (Hi & He & Hu & Hv).
    destruct (i <? steps)%Z eqn:E; simpl.
    + apply Z.ltb_lt in E. lia.
    + apply Z.ltb_ge in E.
      replace (Z.to_nat steps) with (Z.to_nat i) by lia. lia.
  - intros (Hi & Hj & He & Hu & Hv).
    destruct (j <? length x0)%nat eqn:E; simpl.
    + apply Nat.ltb_lt in E. lia.
    + apply Nat.ltb_ge in E.
      replace (Z.to_nat (i + 1)) with (S (Z.to_nat i)) by lia.
      simpl. lia.
  - intros (Hi & Hj & He & Hu & Hv).
    destruct (dlt lower (L !!! j));
      [destruct (dlt logz (logfn L params))|]; simpl;
      rewrite ?length_app; simpl; lia.
  - intros (Hi & Hj & He & Hu & Hv).
    destruct (dlt (R !!! j) upper);
      [destruct (dlt logz (logfn R params))|]; simpl;
      rewrite ?length_app; simpl; lia.
  - intros (Hi & Hj & He & Hu & Hv).
    pose proof (runif_range_counts rs r0 r1 e) as (Ce & Cu).
    pose proof (runif_range_evals rs r0 r1 e) as Cv.
    destruct (runif_range rs r0 r1 e) as [d m1]; simpl in *.
    destruct (dlt logz (logfn (<[j:=d]> xs) params)); simpl;
      [|destruct (dlt (<[j:=d]> xs !!! j) (x !!! j)); simpl];
      rewrite length_app, Cv; simpl; lia.
  - auto.
Qed.

Lemma run_spent (n : nat) (c : config NumericVector) :
  spent x0 steps m c -> spent x0 steps m (runs n c).
Proof.
  revert c. induction n as [|n IH]; intros c H; simpl; [exact H|].
  apply IH, step_spent, H.
Qed.

End Tally.

(** A call that returns gives a vector of the length of [x0], whatever
    its inputs; it has drawn exactly one exponential variate for each of
    its [max(steps, 0) * x0.size()] coordinate updates and at least as
    many uniform ones, and has evaluated the log-density once on entry
    and at least once more for each update. *)
Theorem returning_call_tally
    (rs : seed) (logfn : NumericVector -> NumericVector -> double)
    (params x0 : NumericVector) (steps : Z) (w lower upper : double)
    (fuel : nat) (m m' : world) (v : NumericVector) :
  slice_sample_cpp rs logfn params x0 steps w lower upper fuel m
    = Some (v, m') ->
  let updates := (Z.to_nat steps * length x0)%nat in
  length v = length x0 /\
  n_exp m' = (n_exp m + updates)%nat /\
  (n_unif m + updates <= n_unif m')%nat /\
  (length (evals m) + 1 + updates <= length (evals m'))%nat.
Proof.
  unfold slice_sample_cpp.
  pose proof (run_sized rs logfn params x0 steps w lower upper fuel (init m) I)
    as Hs.
  pose proof (run_spent rs logfn params x0 steps w lower upper m fuel (init m)
                eq_refl) as Ht.
  unfold sized in Hs. unfold spent, tally in Ht.
  destruct (pc (run rs logfn params x0 steps w lower upper fuel (init m)));
    try discriminate.
  intros [= <- <-]. cbv zeta. split; [apply Hs|]. lia.
Qed.

Lemma returning_call_tally_witness :
  let m' := World 2 4
              [Call Entry [Finite (1 # 2)] [Finite 2; Finite 5];
               Call Shrink [Finite (11 # 20)] [Finite 2; Finite 5];
               Call Shrink [Finite (11 # 20)] [Finite 2; Finite 5]] in
  let updates := (Z.to_nat 2 * length [Finite (1 # 2)])%nat in
  length [Finite (11 # 20)] = length [Finite (1 # 2)] /\
  n_exp m' = (n_exp start + updates)%nat /\
  (n_unif start + updates <= n_unif m')%nat /\
  (length (evals start) + 1 + updates <= length (evals m'))%nat.
Proof.
  cbv zeta.
  apply (returning_call_tally half_seed hill [Finite 2; Finite 5]
           [Finite (1 # 2)] 2 (Finite 1) (Finite (3 # 10)) (Finite (4 # 5))
           40 start).
  vm_compute; reflexivity.
Defined.

(** ** A NaN in the starting position *)

Section Poison.
Variable rs : seed.
Variable logfn : NumericVector -> NumericVector -> double.
Variables params x0 : NumericVector.
Variable steps : Z.
Variables w lower upper : double.
Variable k : nat.
Hypothesis Hk : (k < length x0)%nat.
Hypothesis Hnan : x0 !!! k = NaN.

Local Abbreviation step1 := (step rs logfn params x0 steps w lower upper).
Local Abbreviation runs := (run rs logfn params x0 steps w lower upper).

Lemma step_poisoned (c : config NumericVector) :
  sized x0 c -> poisoned k c -> poisoned k (step1 c).
Proof.
  destruct c as [p i j x xs L R r0 r1 logy logz e].
  unfold sized, poisoned, step; simpl. destruct p; simpl.
  - intros _ _. exact Hnan.
  - intros _ H. destruct (i <? steps)%Z; exact H.
  - intros (Hx & HL & HR) H.
    destruct (j <? length x0)%nat eqn:E; simpl; [|exact H].
    apply Nat.ltb_lt in E. split; [exact H|]. intros ->.
    rewrite !list_lookup_total_insert_eq by lia. rewrite H.
    split; [|reflexivity].
    destruct (Finite (unif_rand rs (n_unif e)) * w)%D; reflexivity.
  - intros (Hx & HL & HR & Hj) (H & HLR).
    destruct (dlt lower (L !!! j)) eqn:E;
      [destruct (dlt logz (logfn L params))|]; simpl; auto.
    split; [exact H|]. intros ->.
    destruct (HLR eq_refl) as (Hl & _). rewrite Hl in E.
    destruct lower; discriminate.
  - intros (Hx & HL & HR & Hj) (H & HLR).
    assert (Hleave : x !!! k = NaN /\
                     (j = k -> dmax (L !!! j) lower = NaN) /\
                     (j <> k -> x !!! k = NaN)).
    { split; [exact H|]. split; [|auto]. intros ->.
      destruct (HLR eq_refl) as (-> & _). reflexivity. }
    destruct (dlt (R !!! j) upper) eqn:E;
      [destruct (dlt logz (logfn R params))|]; simpl; auto.
    split; [exact H|]. intros ->.
    destruct (HLR eq_refl) as (_ & Hr). rewrite Hr in E. discriminate.
  - intros (Hx & HL & HR & Hj & Hxs) (H & Hr0 & Hother).
    assert (Hd : j = k -> fst (runif_range rs r0 r1 e) = NaN).
    { intros E. rewrite (Hr0 E). reflexivity. }
    destruct (runif_range rs r0 r1 e) as [d m1]; simpl in *.
    assert (Hxs' : <[j:=d]> xs !!! k = NaN).
    { destruct (decide (j = k)) as [E | E].
      - subst j. rewrite list_lookup_total_insert_eq by lia. auto.
      - rewrite list_lookup_total_insert_ne by exact E. auto. }
    destruct (dlt logz (logfn (<[j:=d]> xs) params)); simpl; [exact Hxs'|].
    destruct (dlt (<[j:=d]> xs !!! j) (x !!! j)) eqn:E; simpl.
    + split; [exact H|]. split; [|auto]. intros ->. exact Hxs'.
    + split; [exact H|]. split; auto.
  - auto.
Qed.

Lemma run_poisoned (n : nat) (c : config NumericVector) :
  sized x0 c -> poisoned k c -> poisoned k (runs n c).
Proof.
  revert c. induction n as [|n IH]; intros c Hs H; simpl; [exact H|].
  apply IH; [apply step_sized, Hs|apply step_poisoned; assumption].
Qed.

Lemma reachable_poisoned (n : nat) (m : world) :
  pc (runs n (init m)) <> Entry -> x (runs n (init m)) !!! k = NaN.
Proof.
  pose proof (run_poisoned n (init m) I I) as H. unfold poisoned in H.
  destruct (pc (runs n (init m))); intros Hpc; try apply H.
  congruence.
Qed.

End Poison.

(** A coordinate of [x0] that is NaN is NaN in the working position at
    every step after entry, and in the vector returned: neither the
    bounds nor the log-density ever repair it. *)
Theorem nan_coordinate_is_kept
    (rs : seed) (logfn : NumericVector -> NumericVector -> double)
    (params x0 : NumericVector) (steps : Z) (w lower upper : double)
    (k : nat) :
  (k < length x0)%nat -> x0 !!! k = NaN ->
  (forall (n : nat) (m : world),
     let c := run rs logfn params x0 steps w lower upper n (init m) in
     pc c <> Entry -> x c !!! k = NaN) /\
  (forall (fuel : nat) (m m' : world) (v : NumericVector),
     slice_sample_cpp rs logfn params x0 steps w lower upper fuel m
       = Some (v, m') ->
     v !!! k = NaN).
Proof.
  intros Hk Hnan. split.
  - intros n m c. apply reachable_poisoned; assumption.
  - intros fuel m m' v. unfold slice_sample_cpp.
    pose proof (reachable_poisoned rs logfn params x0 steps w lower upper
                  k Hk Hnan fuel m) as H.
    destruct (pc (run rs logfn params x0 steps w lower upper fuel (init m)));
      try discriminate.
    intros [= <- <-]. apply H. discriminate.
Qed.

Lemma nan_coordinate_is_kept_witness :
  slice_sample_cpp half_seed hole [] [NaN] 1 (Finite 1)
    (Finite (-2)) (Finite 2) 10 start
  = Some ([NaN], World 1 1 [Call Entry [NaN] []; Call Shrink [NaN] []]) /\
  [NaN] !!! 0%nat = NaN.
Proof.
  split; [vm_compute; reflexivity|].
  eapply (proj2 (nan_coordinate_is_kept half_seed hole [] [NaN] 1 (Finite 1)
                   (Finite (-2)) (Finite 2) 0
                   ltac:(simpl; lia) ltac:(reflexivity)) 10%nat start).
  vm_compute; reflexivity.
Defined.

(** ** Calls without a coordinate update *)

(** With [steps <= 0] the loop of line 56 is not entered, as for
    [steps = 0]: the call returns [x0], draws nothing and evaluates the
    log-density at [x0] only. *)
Theorem nonpositive_steps_return_x0
    (rs : seed) (logfn : NumericVector -> NumericVector -> double)
    (params x0 : NumericVector) (steps : Z) (w lower upper : double)
    (fuel : nat) (m : world) :
  (steps <= 0)%Z ->
  slice_sample_cpp rs logfn params x0 steps w lower upper (S (S fuel)) m
    = Some (x0, note (Call Entry x0 params) m).
Proof.
  intros Hsteps.
  assert (H2 : run rs logfn params x0 steps w lower upper 2 (init m)
               = Config Done 0 0 x0 [] x0 x0 NaN NaN (logfn x0 params) NaN
                   (note (Call Entry x0 params) m)).
  { cbn [run]. unfold step at 2. cbn. unfold step. cbn.
    replace (0 <? steps)%Z with false by (symmetry; apply Z.ltb_ge, Hsteps).
    reflexivity. }
  unfold slice_sample_cpp.
  change (S (S fuel)) with (2 + fuel)%nat.
  rewrite run_add, H2, run_Done by reflexivity. reflexivity.
Qed.

Lemma nonpositive_steps_return_x0_witness :
  slice_sample_cpp half_seed hill [] [Finite 7] (-3) (Finite 1)
    NegInf PosInf 2 start
  = Some ([Finite 7], note (Call Entry [Finite 7] []) start).
Proof.
  apply (nonpositive_steps_return_x0 half_seed hill [] [Finite 7] (-3)
           (Finite 1) NegInf PosInf 0 start).
  lia.
Defined.

Section EmptyPosition.
Variable rs : seed.
Variable logfn : NumericVector -> NumericVector -> double.
Variable params : NumericVector.
Variable steps : Z.
Variables w lower upper : double.

Local Abbreviation runs := (run rs logfn params [] steps w lower upper).

Lemma empty_sweeps (k : nat) (c : config NumericVector) :
  pc c = Sweep -> Z.of_nat k = Z.max 0 (steps - i c) ->
  let c' := runs (2 * k + 1) c in
  pc c' = Done /\ x c' = x c /\ env c' = env c.
Proof.
  revert c. induction k as [|k IH]; intros c Hpc Hk.
  - destruct c as [p i j x xs L R r0 r1 logy logz e]. simpl in *. subst p.
    unfold step; simpl.
    replace (i <? steps)%Z with false by (symmetry; apply Z.ltb_ge; lia).
    auto.
  - replace (2 * S k + 1)%nat with (S (S (2 * k + 1))) by lia.
    destruct c as [p i j x xs L R r0 r1 logy logz e]. simpl in Hpc, Hk.
    subst p. cbn [run]. unfold step at 2. cbn.
    replace (i <? steps)%Z with true by (symmetry; apply Z.ltb_lt; lia).
    unfold step at 2. cbn.
    apply (IH (Config Sweep (i + 1) 0 x xs L R r0 r1 logy logz e));
      [reflexivity|simpl; lia].
Qed.

Lemma empty_run (fuel : nat) (m : world) :
  let c := runs (2 * Z.to_nat steps + 2 + fuel) (init m) in
  pc c = Done /\ x c = [] /\ env c = note (Call Entry [] params) m.
Proof.
  replace (2 * Z.to_nat steps + 2 + fuel)%nat
    with (1 + ((2 * Z.to_nat steps + 1) + fuel))%nat by lia.
  cbv zeta. rewrite run_add. cbn [run Nat.add]. rewrite run_add.
  destruct (empty_sweeps (Z.to_nat steps)
              (step rs logfn params [] steps w lower upper (init m)))
    as (Hpc & Hx & He); [reflexivity|simpl; lia|].
  rewrite run_Done by exact Hpc. rewrite Hx, He. auto.
Qed.

End EmptyPosition.

(** For an empty [x0] the call returns the empty vector for every number
    of sweeps: the sweeps are run, [2 * max(steps, 0) + 2] steps in all,
    and none draws a variate or evaluates the log-density, which is
    evaluated at the empty vector on entry only. *)
Theorem empty_position_returns_empty
    (rs : seed) (logfn : NumericVector -> NumericVector -> double)
    (params : NumericVector) (steps : Z) (w lower upper : double)
    (fuel : nat) (m : world) :
  slice_sample_cpp rs logfn params [] steps w lower upper
    (2 * Z.to_nat steps + 2 + fuel) m
  = Some ([], note (Call Entry [] params) m).
Proof.
  unfold slice_sample_cpp.
  destruct (empty_run rs logfn params steps w lower upper fuel m)
    as (Hpc & Hx & He).
  rewrite Hpc, Hx, He. reflexivity.
Qed.

(** ** The sampler of the unit test on the bivariate normal *)

(** What a call returns under the input contract. *)
Lemma returned_inside
    (rs : seed) (logfn : NumericVector -> NumericVector -> double)
    (params x0 : NumericVector) (steps : Z) (w lower upper : double)
    (fuel : nat) (m m' : world) (v : NumericVector) :
  unit_uniforms rs -> positive w -> Forall (inside lower upper) x0 ->
  slice_sample_cpp rs logfn params x0 steps w lower upper fuel m
    = Some (v, m') ->
  length v = length x0 /\ Forall (inside lower upper) v.
Proof.
  intros Hrs Hw Hx0. unfold slice_sample_cpp.
  pose proof (reachable_Inv rs logfn params x0 steps w lower upper
                Hrs Hw Hx0 fuel m) as H.
  unfold Inv in H.
  destruct (pc (run rs logfn params x0 steps w lower upper fuel (init m)));
    try discriminate.
  intros [= <- <-]. destruct H as (Hl & _ & _ & Hin). auto.
Qed.

(** A call of [slice_sample_mvnorm] that returns gives a vector of two
    numbers, neither NaN nor infinite, whatever [sigma] is.  Whether the
    call returns is not part of the statement. *)
Theorem mvnorm_draw_is_a_pair_of_numbers
    (rs : seed) (lib : Rmath) (fuel : nat) (sigma : NumericVector)
    (m m' : world) (v : NumericVector) :
  unit_uniforms rs ->
  slice_sample_mvnorm rs lib fuel sigma m = Some (v, m') ->
  exists a b : Q, v = [Finite a; Finite b].
Proof.
  intros Hrs Hret. unfold slice_sample_mvnorm in Hret.
  destruct (returned_inside rs (post_mvnorm lib) sigma
              [Finite (1 # 5); Finite (3 # 10)] (to_int (Finite 20))
              (Finite 1) NegInf PosInf fuel m m' v Hrs
              ltac:(by_computation) ltac:(by_computation) Hret)
    as (Hlen & Hall).
  destruct v as [|a [|b [|? ?]]]; try discriminate.
  inversion Hall as [|? ? (p & -> & _) Hrest]; subst.
  inversion Hrest as [|? ? (q & -> & _) _]; subst.
  exists p, q. reflexivity.
Qed.

(** The covariance of the unit test of lines 165-167. *)
Lemma mvnorm_draw_is_a_pair_of_numbers_witness :
  fst <$> slice_sample_mvnorm quarter_seed crude 2000
            [Finite 1; Finite (3 # 5); Finite (3 # 5); Finite (6 # 5)] start
  = Some [Finite (19 # 20); Finite (-567 # 160)] /\
  exists a b : Q, [Finite (19 # 20); Finite (-567 # 160)] = [Finite a; Finite b].
Proof.
  split; [vm_compute; reflexivity|].
  eapply (mvnorm_draw_is_a_pair_of_numbers quarter_seed crude 2000
            [Finite 1; Finite (3 # 5); Finite (3 # 5); Finite (6 # 5)]
            start _ [Finite (19 # 20); Finite (-567 # 160)]
            ltac:(by_computation)).
  vm_compute; reflexivity.
Defined.

(** ** The carried log-density *)

Section Cache.
Variable rs : seed.
Variable logfn : NumericVector -> NumericVector -> double.
Variables params x0 : NumericVector.
Variable steps : Z.
Variables w lower upper : double.

Local Abbreviation step1 := (step rs logfn params x0 steps w lower upper).
Local Abbreviation runs := (run rs logfn params x0 steps w lower upper).
Local Abbreviation ok := (cached rs logfn params).

Lemma step_cached (c : config NumericVector) : ok c -> ok (step1 c).
Proof.
  destruct c as [p i j x xs L R r0 r1 logy logz e].
  unfold cached, step; simpl. destruct p; simpl.
  - auto.
  - intros H. destruct (i <? steps)%Z; exact H.
  - intros H. destruct (j <? length x0)%nat; simpl; [|exact H].
    rewrite Nat.sub_0_r. split; [exact H|]. split; [lia|reflexivity].
  - intros H.
    destruct (dlt lower (L !!! j));
      [destruct (dlt logz (logfn L params))|]; simpl; exact H.
  - intros H.
    destruct (dlt (R !!! j) upper);
      [destruct (dlt logz (logfn R params))|]; simpl; exact H.
  - intros (H & Hn & Hz).
    pose proof (runif_range_counts rs r0 r1 e) as (Ce & _).
    destruct (runif_range rs r0 r1 e) as [d m1]; simpl in *.
    destruct (dlt logz (logfn (<[j:=d]> xs) params)); simpl;
      [reflexivity|].
    destruct (dlt (<[j:=d]> xs !!! j) (x !!! j)); simpl;
      rewrite Ce; auto.
  - auto.
Qed.

Lemma run_cached (n : nat) (c : config NumericVector) : ok c -> ok (runs n c).
Proof.
  revert c. induction n as [|n IH]; intros c H; simpl; [exact H|].
  apply IH, step_cached, H.
Qed.

End Cache.

(** At every step of every run after entry, whatever the input, [logy]
    is the log-density at the working position [x], which the code
    evaluates once, when the position is accepted. *)
Theorem carried_log_density_is_current
    (rs : seed) (logfn : NumericVector -> NumericVector -> double)
    (params x0 : NumericVector) (steps : Z) (w lower upper : double)
    (n : nat) (m : world) :
  let c := run rs logfn params x0 steps w lower upper n (init m) in
  pc c <> Entry -> logy c = logfn (x c) params.
Proof.
  intros c Hpc.
  pose proof (run_cached rs logfn params x0 steps w lower upper n (init m) I)
    as H.
  fold c in H. unfold cached in H.
  destruct (pc c); try apply H. congruence.
Qed.

Lemma carried_log_density_is_current_witness :
  let c := run half_seed bowl [] [Finite 0; Finite 0] 1 (Finite 1)
             NegInf PosInf 6 (init start) in
  (pc c = ExpandRight /\ x c = [Finite 0; Finite 0] /\ logy c = Finite 0) /\
  logy c = bowl (x c) [].
Proof.
  cbv zeta. split; [vm_compute; repeat split; reflexivity|].
  apply (carried_log_density_is_current half_seed bowl []
           [Finite 0; Finite 0] 1 (Finite 1) NegInf PosInf 6 start).
  vm_compute. discriminate.
Defined.

(** ** The log-densities *)

(** [pcnbd_post_k] and [pcnbd_post_lambda] read the lifetime [tau]
    (entry 7 of the bundle) through [std::min(Tcal, tau)] only: for a
    customer whose [tau] is not below [Tcal] (entry 2), replacing [tau]
    by any other value that is not below [Tcal] leaves both log-densities
    as they are. *)
Theorem lifetime_is_censored_at_Tcal
    (lib : Rmath) (data params : NumericVector) (tau' : double) :
  (7 < length params)%nat ->
  (params !!! 7%nat <? params !!! 2%nat)%D = false ->
  (tau' <? params !!! 2%nat)%D = false ->
  pcnbd_post_k lib data (<[7%nat := tau']> params)
    = pcnbd_post_k lib data params /\
  pcnbd_post_lambda lib data (<[7%nat := tau']> params)
    = pcnbd_post_lambda lib data params.
Proof.
  intros Hlen Htau Htau'. unfold pcnbd_post_k, pcnbd_post_lambda.
  rewrite !list_lookup_total_insert_eq by exact Hlen.
  rewrite !list_lookup_total_insert_ne by lia.
  unfold dmin. rewrite Htau, Htau'. split; reflexivity.
Qed.

Lemma lifetime_is_censored_at_Tcal_witness :
  let params :=
    [Finite 2; Finite 8; Finite 14; Finite 0;
     Finite 1; Finite 1; Finite (1 # 100); Finite 20;
     Finite 1; Finite 1; Finite 1; Finite 1; Finite 1; Finite 1] in
  pcnbd_post_k crude [Finite 1] (<[7%nat := PosInf]> params)
    = pcnbd_post_k crude [Finite 1] params /\
  pcnbd_post_lambda crude [Finite 1] (<[7%nat := PosInf]> params)
    = pcnbd_post_lambda crude [Finite 1] params.
Proof.
  cbv zeta.
  apply (lifetime_is_censored_at_Tcal crude [Finite 1]
           [Finite 2; Finite 8; Finite 14; Finite 0;
            Finite 1; Finite 1; Finite (1 # 100); Finite 20;
            Finite 1; Finite 1; Finite 1; Finite 1; Finite 1; Finite 1]
           PosInf).
  - simpl; lia.
  - vm_compute; reflexivity.
  - vm_compute; reflexivity.
Defined.

(** The three log-densities of the Pareto/CNBD model are NaN at NaN,
    whatever the library functions return. *)
Lemma pcnbd_post_tau_nan (lib : Rmath) (params : NumericVector) :
  pcnbd_post_tau lib [NaN] params = NaN.
Proof.
  unfold pcnbd_post_tau. simpl.
  destruct (- params !!! 6%nat)%D; reflexivity.
Qed.

Lemma pcnbd_post_k_nan (lib : Rmath) (params : NumericVector) :
  pcnbd_post_k lib [NaN] params = NaN.
Proof.
  unfold pcnbd_post_k. simpl.
  destruct ((params !!! 8%nat - Finite 1) * log lib NaN)%D; reflexivity.
Qed.

Lemma pcnbd_post_lambda_nan (lib : Rmath) (params : NumericVector) :
  pcnbd_post_lambda lib [NaN] params = NaN.
Proof.
  unfold pcnbd_post_lambda. simpl.
  destruct ((params !!! 10%nat - Finite 1) * log lib NaN)%D; reflexivity.
Qed.

(** ** A NaN among the current values *)

(** A call with at least one sweep over at least one coordinate never
    returns when the log-density at [x0] is NaN. *)
Lemma nan_start_never_returns
    (rs : seed) (logfn : NumericVector -> NumericVector -> double)
    (params x0 : NumericVector) (steps : Z) (w lower upper : double)
    (fuel : nat) (m : world) :
  (0 < steps)%Z -> x0 <> [] -> logfn x0 params = NaN ->
  slice_sample_cpp rs logfn params x0 steps w lower upper fuel m = None.
Proof.
  intros Hsteps Hx0 Hnan. unfold slice_sample_cpp.
  pose proof (run_stuck rs logfn params x0 steps w lower upper Hsteps Hx0
                fuel (init m) Hnan I) as H.
  unfold stuck in H.
  destruct (pc (run rs logfn params x0 steps w lower upper fuel (init m)));
    try reflexivity.
  destruct H.
Qed.

Lemma for_loop_None (body : nat -> NumericVector -> M NumericVector)
    (i from count : nat) (out : NumericVector) (m : world) :
  (from <= i < from + count)%nat ->
  (forall o mi, body i o mi = None) ->
  for_loop body from count out m = None.
Proof.
  intros Hi Hnone. revert from out m Hi.
  induction count as [|n IH]; intros from out m Hi; [lia|].
  simpl. unfold bind.
  destruct (decide (from = i)) as [-> | Hne]; [rewrite Hnone; reflexivity|].
  destruct (body from out m) as [[o m1]|]; [|reflexivity].
  apply IH. lia.
Qed.

(** [pcnbd_slice_sample] never returns, whatever the fuel, when the
    vector it samples holds a NaN (R's NA included) for one of the
    customers: [k[i]] for "k", [lambda[i]] for "lambda", and for "tau"
    a [tau[i]] of a customer for whom the flatness test of line 426
    fails; the test of line 431 does not catch it, the sampler starts
    from NaN, where the log-density is NaN, and its shrinkage loop does
    not end. *)
Theorem nan_value_hangs_the_driver
    (rs : seed) (lib : Rmath) (fuel : nat)
    (x tx Tcal litt k lambda mu tau : NumericVector)
    (t gamma r alpha s beta : double) (i : nat) (m : world) :
  (i < length x)%nat ->
  (k !!! i = NaN ->
   pcnbd_slice_sample rs lib fuel "k" x tx Tcal litt k lambda mu tau
     t gamma r alpha s beta m = None) /\
  (lambda !!! i = NaN ->
   pcnbd_slice_sample rs lib fuel "lambda" x tx Tcal litt k lambda mu tau
     t gamma r alpha s beta m = None) /\
  (tau !!! i = NaN -> too_flat lib tx k lambda i = false ->
   pcnbd_slice_sample rs lib fuel "tau" x tx Tcal litt k lambda mu tau
     t gamma r alpha s beta m = None).
Proof.
  intros Hi.
  assert (Hgen : forall what : string,
    (forall o mi,
       pcnbd_slice_sample_at rs lib fuel what x tx Tcal litt k lambda mu tau
         t gamma r alpha s beta i o mi = None) ->
    pcnbd_slice_sample rs lib fuel what x tx Tcal litt k lambda mu tau
      t gamma r alpha s beta m = None).
  { intros what Hnone. unfold pcnbd_slice_sample.
    apply for_loop_None with (i := i); [lia|exact Hnone]. }
  split; [|split].
  - intros Hnan. apply Hgen. intros o mi.
    unfold pcnbd_slice_sample_at. decide_selector.
    unfold store_first, bind. rewrite Hnan.
    rewrite nan_start_never_returns;
      [reflexivity|lia|discriminate|apply pcnbd_post_k_nan].
  - intros Hnan. apply Hgen. intros o mi.
    unfold pcnbd_slice_sample_at. decide_selector.
    unfold store_first, bind. rewrite Hnan.
    rewrite nan_start_never_returns;
      [reflexivity|lia|discriminate|apply pcnbd_post_lambda_nan].
  - intros Hnan Hflat. apply Hgen. intros o mi.
    unfold pcnbd_slice_sample_at. decide_selector. rewrite Hflat.
    unfold store_first, bind, tau_init. rewrite Hnan.
    replace (dlt (Tcal !!! i) NaN) with false
      by (destruct (Tcal !!! i); reflexivity).
    simpl.
    rewrite nan_start_never_returns;
      [reflexivity|lia|discriminate|apply pcnbd_post_tau_nan].
Qed.

(** The second of two customers has no [tau] yet. *)
Lemma nan_value_hangs_the_driver_witness :
  pcnbd_slice_sample quarter_seed crude 1000 "tau"
    [Finite 0; Finite 0] [Finite 8; Finite 8] [Finite 14; Finite 14]
    [Finite 0; Finite 0] [Finite 1; Finite 1]
    [Finite (99 # 100); Finite (99 # 100)]
    [Finite (1 # 100); Finite (1 # 100)] [Finite 9; NaN]
    (Finite 0) (Finite 0) (Finite 0) (Finite 0) (Finite 0) (Finite 0) start
  = None.
Proof.
  apply (proj2 (proj2 (nan_value_hangs_the_driver quarter_seed crude 1000
                         [Finite 0; Finite 0] [Finite 8; Finite 8]
                         [Finite 14; Finite 14] [Finite 0; Finite 0]
                         [Finite 1; Finite 1]
                         [Finite (99 # 100); Finite (99 # 100)]
                         [Finite (1 # 100); Finite (1 # 100)]
                         [Finite 9; NaN]
                         (Finite 0) (Finite 0) (Finite 0) (Finite 0)
                         (Finite 0) (Finite 0) 1%nat start
                         ltac:(simpl; lia)))).
  - reflexivity.
  - vm_compute; reflexivity.
Defined.

(** ** The draws of [slice_sample_ma_liu] *)

Section Untouched.
Variable body : nat -> NumericVector -> M NumericVector.
Variables N per : nat.
Hypothesis Hbody :
  forall i o mi, (i < N)%nat ->
    exists o' mi',
      body i o mi = Some (o', mi') /\ length o' = length o /\
      n_exp mi' = n_exp mi /\ n_unif mi' = n_unif mi /\
      length (evals mi') = (length (evals mi) + per)%nat.


End Untouched.


